(** * uidgen: a shallow embedding of [uidgenerator.go]

    The Go package packs an epoch tick, a server identity and a sequence
    counter into one [uint64].  Everything below follows the source file
    function by function.  Go's fixed-width integers are carried as [Z]
    with the wrap-around written out at every operation:

    - [uint8]  values live in [0, 2^8)   and wrap with [u8];
    - [uint64] values live in [0, 2^64)  and wrap with [u64];
    - [int64]  values live in [-2^63, 2^63) and wrap with [i64];
    - [int8]   values live in [-2^7, 2^7)   and wrap with [i8].

    A Go shift whose count reaches the operand width yields 0 (or -1 for a
    negative signed operand shifted right); [Z.shiftl] followed by the wrap
    and [Z.shiftr] on the wrapped value give exactly that. *)

From Stdlib Require Import ZArith Lia List Bool String Ascii Sorted.
Import ListNotations.

Local Open Scope Z_scope.

(* ================================================================= *)
(** ** Machine integers *)

Module Mach.

Definition u8 (x : Z) : Z := x mod 2 ^ 8.
Definition u64 (x : Z) : Z := x mod 2 ^ 64.
Definition i64 (x : Z) : Z := (x + 2 ^ 63) mod 2 ^ 64 - 2 ^ 63.
Definition i8 (x : Z) : Z := (x + 2 ^ 7) mod 2 ^ 8 - 2 ^ 7.

(** [x << n] and [x >> n] on a [uint64] operand. *)
Definition shl64 (x n : Z) : Z := u64 (Z.shiftl x n).
Definition shr64 (x n : Z) : Z := Z.shiftr x n.

(** [x << n] and [x >> n] on an [int64] operand (arithmetic right shift). *)
Definition shl_i64 (x n : Z) : Z := i64 (Z.shiftl x n).
Definition shr_i64 (x n : Z) : Z := Z.shiftr x n.

Definition is_u8 (x : Z) : Prop := 0 <= x < 2 ^ 8.
Definition is_u64 (x : Z) : Prop := 0 <= x < 2 ^ 64.
Definition is_i64 (x : Z) : Prop := - 2 ^ 63 <= x < 2 ^ 63.

End Mach.
Import Mach.

(* ================================================================= *)
(** ** Configuration and layout derivation *)

Inductive Error : Type :=
| ErrInvalidStringUID
| ErrTooBigServerID
| ErrTooLongID.

Definition UniqueID : Type := Z.

Record UidGeneratorConfig : Type := mkConfig {
  EpochLen : Z;      (* uint8 *)
  SrvLen : Z;        (* uint8 *)
  CntLen : Z;        (* uint8 *)
  IntervalLen : Z;   (* uint8 *)
  TruncStr : bool;
  EpochStart : Z;    (* int64 *)
  SrvID : Z;         (* int64 *)

  strLen : Z;        (* int8 *)
  epochShift : Z;    (* uint8 *)
  epochMask : UniqueID;
  epochIota : UniqueID;
  maxSrv : UniqueID;
  srvMask : UniqueID;
  maxCnt : UniqueID;
  cntMask : UniqueID;
  interval : Z;      (* int64 *)
  timeMask : Z       (* int64 *)
}.

(** The fields a caller fills in; the derived ones start at Go's zero value. *)
Definition rawConfig (el sl cl il : Z) (trunc : bool) (start srv : Z)
  : UidGeneratorConfig :=
  mkConfig el sl cl il trunc start srv 0 0 0 0 0 0 0 0 0 0.

(** A configuration whose caller-visible fields have their Go types. *)
Definition wf_config (cfg : UidGeneratorConfig) : Prop :=
  is_u8 (EpochLen cfg) /\ is_u8 (SrvLen cfg) /\ is_u8 (CntLen cfg) /\
  is_u8 (IntervalLen cfg) /\ is_i64 (EpochStart cfg) /\ is_i64 (SrvID cfg).

Definition letterLen : Z := 5.
Definition letterMask : Z := Z.shiftl 1 letterLen - 1.

(** [idLen] of [update]: a sum of three [uint8] values, itself a [uint8]. *)
Definition idLen (cfg : UidGeneratorConfig) : Z :=
  u8 (u8 (EpochLen cfg + SrvLen cfg) + CntLen cfg).

(** [int8(math.Ceil(float64(idLen) / letterLen))].  For an integer
    [0 <= idLen <= 255] the quotient by 5 is either exact or at least 0.2
    away from the next integer, so the floating-point ceiling is the
    integer ceiling. *)
Definition strLenOf (n : Z) : Z := i8 ((n + letterLen - 1) / letterLen).

Definition update (cfg : UidGeneratorConfig) : Error + UidGeneratorConfig :=
  let idl := idLen cfg in
  if idl >? 64 then inl ErrTooLongID
  else
    let sLen := strLenOf idl in
    let eShift := u8 (SrvLen cfg + CntLen cfg) in
    let eMask := shl64 (u64 (shl64 1 (EpochLen cfg) - 1)) eShift in
    let eIota := shl64 1 eShift in
    let mSrv := u64 (shl64 1 (SrvLen cfg) - 1) in
    let sMask := shl64 mSrv (CntLen cfg) in
    let mCnt := u64 (shl64 1 (CntLen cfg) - 1) in
    let iLen := if IntervalLen cfg =? 0 then u8 (61 - EpochLen cfg)
                else IntervalLen cfg in
    let itv := shl_i64 1 iLen in
    inr (mkConfig (EpochLen cfg) (SrvLen cfg) (CntLen cfg) iLen
                  (TruncStr cfg) (EpochStart cfg) (SrvID cfg)
                  sLen eShift eMask eIota mSrv sMask mCnt mCnt
                  itv (i64 (itv - 1))).

(** [SnowflakeConfig] of the source. *)
Definition SnowflakeConfig : UidGeneratorConfig :=
  rawConfig 41 10 12 20 false 1288834974 0.

(* ================================================================= *)
(** ** The generator *)

(** [mu] is left out: every [NextID] call runs its state update under the
    lock, so calls on one instance are modelled as a sequence.  [start] is
    left out as well: the only use of it, [time.Since(gen.start)], is an
    input of [NextID] here. *)
Record UidGenerator : Type := mkGen {
  cfg : UidGeneratorConfig;
  epoch : UniqueID;
  srvID : UniqueID;
  cnt : UniqueID
}.

Definition NewUidGenerator (c : UidGeneratorConfig) (prevID : UniqueID)
  : Error + UidGenerator :=
  match update c with
  | inl err => inl err
  | inr c' =>
      if SrvID c' >? i64 (maxSrv c') then inl ErrTooBigServerID
      else inr (mkGen c'
                      (Z.land prevID (epochMask c'))
                      (u64 (shl_i64 (SrvID c') (CntLen c')))
                      (Z.land prevID (cntMask c')))
  end.

(** The candidate epoch of a call: [elapsed] is
    [time.Since(gen.start).Nanoseconds()], an [int64]. *)
Definition candidateEpoch (c : UidGeneratorConfig) (elapsed : Z) : UniqueID :=
  let since := shr_i64 elapsed (IntervalLen c) in
  Z.land (shl64 (u64 since) (epochShift c)) (epochMask c).

(** The stall of the exhaustion branch, from [time.Now().Nanosecond()].  It
    only lets time pass; the state update after it does not read the clock. *)
Definition stallNanos (c : UidGeneratorConfig) (nanosecond : Z) : Z :=
  i64 (interval c - Z.land nanosecond (timeMask c)).

(** Does this call take the exhaustion branch? *)
Definition exhausted (gen : UidGenerator) (elapsed : Z) : bool :=
  (candidateEpoch (cfg gen) elapsed <=? epoch gen) &&
  (u64 (cnt gen + 1) >? maxCnt (cfg gen)).

(** [NextID]: the returned ID and the generator after the call. *)
Definition NextID (gen : UidGenerator) (elapsed : Z)
  : UniqueID * UidGenerator :=
  let c := cfg gen in
  let e := candidateEpoch c elapsed in
  let gen' :=
    if e <=? epoch gen then
      let cnt1 := u64 (cnt gen + 1) in
      if cnt1 >? maxCnt c then
        mkGen c (u64 (epoch gen + epochIota c)) (srvID gen) 0
      else mkGen c (epoch gen) (srvID gen) cnt1
    else mkGen c e (srvID gen) 0 in
  (u64 (u64 (epoch gen' + srvID gen') + cnt gen'), gen').

(** A sequence of calls, one elapsed-time reading per call: the IDs in
    the order returned, and the generator after the last call. *)
Fixpoint run (gen : UidGenerator) (ts : list Z)
  : list UniqueID * UidGenerator :=
  match ts with
  | [] => ([], gen)
  | t :: ts' =>
      let '(id, gen1) := NextID gen t in
      let '(ids, gen2) := run gen1 ts' in
      (id :: ids, gen2)
  end.

(** The value the stored state stands for: [epoch + srvID + cnt]. *)
Definition currentID (gen : UidGenerator) : UniqueID :=
  u64 (u64 (epoch gen + srvID gen) + cnt gen).

(* ================================================================= *)
(** ** Field accessors and time conversions *)

Definition ServerID (gen : UidGenerator) (id : UniqueID) : Z :=
  shr_i64 (i64 (Z.land id (srvMask (cfg gen)))) (CntLen (cfg gen)).

Definition Count (gen : UidGenerator) (id : UniqueID) : Z :=
  i64 (Z.land id (cntMask (cfg gen))).

(** The epoch field as [Unix] and [UnixNano] read it: [id >> epochShift]. *)
Definition epochField (gen : UidGenerator) (id : UniqueID) : Z :=
  shr64 id (epochShift (cfg gen)).

Definition FromUnix (gen : UidGenerator) (t : Z) : UniqueID :=
  let c := cfg gen in
  let d := u64 (i64 (t - EpochStart c)) in
  let ticks := shr64 (u64 (d * 1000000000)) (IntervalLen c) in
  u64 (shl64 ticks (epochShift c) + srvID gen).

Definition Unix (gen : UidGenerator) (id : UniqueID) : Z :=
  let c := cfg gen in
  let nsec := i64 (shl64 (shr64 id (epochShift c)) (IntervalLen c)) in
  let unix := Z.quot nsec 1000000000 in
  let unix' := if Z.rem nsec 1000000000 >=? 500000000
               then i64 (unix + 1) else unix in
  i64 (unix' + EpochStart c).



(* ================================================================= *)
(** ** The base-32 codec *)

Local Open Scope string_scope.

Definition letters : string := "abcdefghijklmnopqrstuvwxyzABCDEF".

(** A Go string is a sequence of bytes; [byteOf] is the value of one. *)
Definition byteOf (c : ascii) : Z := Z.of_N (N_of_ascii c).

(** [letters[idx]]; the callers index with [id & letterMask], below 32. *)
Definition letterAt (idx : Z) : ascii :=
  match String.get (Z.to_nat idx) letters with
  | Some c => c
  | None => zero
  end.

(** [tbl[i] = v] on a fixed-size array; every index written by [init] is
    below 256, the size of the table. *)
Fixpoint setAt (tbl : list Z) (i : nat) (v : Z) : list Z :=
  match tbl, i with
  | [], _ => []
  | _ :: rest, O => v :: rest
  | x :: rest, S i' => x :: setAt rest i' v
  end.

(** [init]: the table starts zeroed; the first loop runs over
    [i < len(letters)] and marks those entries [0xFF]; the second loop
    stores the index of every letter. *)
Definition decodeTable : list Z :=
  let n := String.length letters in
  let zeroed := repeat 0%Z 256 in
  let marked := fold_left (fun t i => setAt t i 255%Z) (seq 0 n) zeroed in
  fold_left
    (fun t i => setAt t (Z.to_nat (byteOf (letterAt (Z.of_nat i)))) (Z.of_nat i))
    (seq 0 n) marked.

Definition decodeLetters (b : Z) : Z := nth (Z.to_nat b) decodeTable 0%Z.

Local Close Scope string_scope.

(** First loop of [FromBase32]: [n] iterations remain, [i] is the [int8]
    index, [id] the accumulator; [None] is the early error return. *)
Fixpoint decodeLoop (n : nat) (str : string) (i id : Z) : option (Z * Z) :=
  match n, str with
  | S n', String c rest =>
      let ch := decodeLetters (byteOf c) in
      if ch =? 255 then None
      else decodeLoop n' rest (i + 1) (u64 (shl64 id letterLen + ch))
  | _, _ => Some (i, id)
  end.

(** Second loop of [FromBase32]: [k] more shifts by one letter. *)
Fixpoint padLoop (k : nat) (id : Z) : Z :=
  match k with
  | O => id
  | S k' => padLoop k' (shl64 id letterLen)
  end.

Definition FromBase32 (gen : UidGenerator) (str : string)
  : UniqueID * option Error :=
  let bound := i8 (Z.of_nat (String.length str)) in
  match decodeLoop (Z.to_nat bound) str 0 0 with
  | None => (0, Some ErrInvalidStringUID)
  | Some (i, id) =>
      (padLoop (Z.to_nat (strLen (cfg gen) - i)) id, None)
  end.

(** What a call of [ToBase32] can do: return, panic in [make] on a
    negative length, or still be in the truncation loop when [fuel] runs
    out. *)
Inductive outcome (A : Type) : Type :=
| Returns (a : A)
| Panics
| StillLooping.
Arguments Returns {A} a.
Arguments Panics {A}.
Arguments StillLooping {A}.

(** The truncation loop [for id&letterMask == 0 { id >>= letterLen; i-- }]
    with [i] an [int8]. *)
Fixpoint stripZeros (fuel : nat) (id i : Z) : option (Z * Z) :=
  if Z.land id letterMask =? 0 then
    match fuel with
    | O => None
    | S fuel' => stripZeros fuel' (shr64 id letterLen) (i8 (i - 1))
    end
  else Some (id, i).

(** The loop [for ; i >= 0; i-- { b[i] = letters[id&letterMask]; id >>= letterLen }]
    over [n = i + 1] positions, filling the buffer from its last byte. *)
Fixpoint fillLetters (n : nat) (id : Z) (acc : string) : string :=
  match n with
  | O => acc
  | S n' =>
      fillLetters n' (shr64 id letterLen)
                  (String (letterAt (Z.land id letterMask)) acc)
  end.

Definition encodeFrom (id i : Z) : outcome string :=
  let len := i8 (i + 1) in
  if len <? 0 then Panics
  else Returns (fillLetters (Z.to_nat len) id EmptyString).

Definition ToBase32 (fuel : nat) (gen : UidGenerator) (id : UniqueID)
  : outcome string :=
  let i := i8 (strLen (cfg gen) - 1) in
  if TruncStr (cfg gen) then
    match stripZeros fuel id i with
    | None => StillLooping
    | Some (id', i') => encodeFrom id' i'
    end
  else encodeFrom id i.

(** Twelve rounds bring any non-zero 64-bit value to a non-zero low
    letter; the callers below pass this much fuel or more. *)
Definition enoughFuel : nat := 13.

(* ================================================================= *)
(** ** Predicates of the development *)

(** The three widths add up to at most 64 as integers (no [uint8] wrap). *)
Definition valid_widths (c : UidGeneratorConfig) : Prop :=
  EpochLen c + SrvLen c + CntLen c <= 64.

(** The derived constants in closed form. *)
Record layout (c : UidGeneratorConfig) : Prop := mkLayout {
  lay_epoch : 0 <= EpochLen c;
  lay_srv : 0 <= SrvLen c;
  lay_cnt : 0 <= CntLen c;
  lay_total : EpochLen c + SrvLen c + CntLen c <= 64;
  lay_shift : epochShift c = SrvLen c + CntLen c;
  lay_emask : epochMask c = (2 ^ EpochLen c - 1) * 2 ^ epochShift c;
  lay_iota : epochIota c = u64 (2 ^ epochShift c);
  lay_maxsrv : maxSrv c = 2 ^ SrvLen c - 1;
  lay_smask : srvMask c = (2 ^ SrvLen c - 1) * 2 ^ CntLen c;
  lay_maxcnt : maxCnt c = 2 ^ CntLen c - 1;
  lay_cmask : cntMask c = maxCnt c
}.

(** A generator whose layout is the derived one, whose epoch field starts
    at bit 63 or below, whose stored epoch is a 64-bit multiple of the
    epoch quantum, whose counter is within its field, and whose server
    value is the configured identity in place. *)
Record gen_ok (g : UidGenerator) : Prop := mkGenOk {
  ok_layout : layout (cfg g);
  ok_shift : epochShift (cfg g) <= 63;
  ok_epoch : 0 <= epoch g < 2 ^ 64;
  ok_epoch_mult : (2 ^ epochShift (cfg g) | epoch g);
  ok_cnt : 0 <= cnt g <= maxCnt (cfg g);
  ok_srv_range : 0 <= SrvID (cfg g) < 2 ^ SrvLen (cfg g);
  ok_srv : srvID g = SrvID (cfg g) * 2 ^ CntLen (cfg g)
}.

(** No call of the sequence carries the stored epoch past [2^64] when
    it takes the exhaustion branch. *)
Fixpoint no_epoch_wrap (g : UidGenerator) (ts : list Z) : Prop :=
  match ts with
  | [] => True
  | t :: ts' =>
      (exhausted g t = true -> epoch g + epochIota (cfg g) < 2 ^ 64) /\
      no_epoch_wrap (snd (NextID g t)) ts'
  end.

(** The generator of a configuration known to be accepted. *)
Definition genOf (c : UidGeneratorConfig) (prevID : UniqueID) : UidGenerator :=
  match NewUidGenerator c prevID with
  | inr g => g
  | inl _ => mkGen c 0 0 0
  end.

(** The same generator with the truncation flag set to [b]. *)
Definition withTruncStr (b : bool) (g : UidGenerator) : UidGenerator :=
  let c := cfg g in
  mkGen (mkConfig (EpochLen c) (SrvLen c) (CntLen c) (IntervalLen c) b
                  (EpochStart c) (SrvID c) (strLen c) (epochShift c)
                  (epochMask c) (epochIota c) (maxSrv c) (srvMask c)
                  (maxCnt c) (cntMask c) (interval c) (timeMask c))
        (epoch g) (srvID g) (cnt g).

(* ================================================================= *)
(** ** Facts about the machine integers *)

Section MachFacts.

Lemma pow2_pos (n : Z) : 0 <= n -> 0 < 2 ^ n.
Proof. intros; apply Z.pow_pos_nonneg; lia. Qed.

Lemma pow2_le (a b : Z) : 0 <= a <= b -> 2 ^ a <= 2 ^ b.
Proof. intros; apply Z.pow_le_mono_r; lia. Qed.

Lemma pow2_lt (a b : Z) : 0 <= a < b -> 2 ^ a < 2 ^ b.
Proof. intros; apply Z.pow_lt_mono_r; lia. Qed.

Lemma pow2_split (a b : Z) : 0 <= a <= b -> 2 ^ b = 2 ^ (b - a) * 2 ^ a.
Proof.
  intros. rewrite <- Z.pow_add_r by lia. f_equal; lia.
Qed.

Lemma u64_small (x : Z) : 0 <= x < 2 ^ 64 -> u64 x = x.
Proof. intros; unfold u64; apply Z.mod_small; assumption. Qed.

Lemma u64_range (x : Z) : 0 <= u64 x < 2 ^ 64.
Proof. unfold u64; apply Z.mod_pos_bound; lia. Qed.

Lemma i64_small (x : Z) : - 2 ^ 63 <= x < 2 ^ 63 -> i64 x = x.
Proof.
  intros; unfold i64. rewrite Z.mod_small; lia.
Qed.

Lemma i64_range (x : Z) : - 2 ^ 63 <= i64 x < 2 ^ 63.
Proof.
  unfold i64. pose proof (Z.mod_pos_bound (x + 2 ^ 63) (2 ^ 64)); lia.
Qed.

Lemma i8_small (x : Z) : - 2 ^ 7 <= x < 2 ^ 7 -> i8 x = x.
Proof.
  intros; unfold i8. rewrite Z.mod_small; lia.
Qed.

Lemma u8_small (x : Z) : 0 <= x < 2 ^ 8 -> u8 x = x.
Proof. intros; unfold u8; apply Z.mod_small; assumption. Qed.

(** The wrap of a signed value back to [uint64] forgets the signed wrap. *)
Lemma u64_i64 (x : Z) : u64 (i64 x) = u64 x.
Proof.
  unfold u64, i64.
  rewrite Zminus_mod, Zmod_mod, <- Zminus_mod.
  f_equal; lia.
Qed.

Lemma shl64_mul (x n : Z) : 0 <= n -> shl64 x n = u64 (x * 2 ^ n).
Proof. intros; unfold shl64; rewrite Z.shiftl_mul_pow2 by lia; reflexivity. Qed.

Lemma shl64_one_low (n : Z) : 0 <= n < 64 -> shl64 1 n = 2 ^ n.
Proof.
  intros. rewrite shl64_mul, Z.mul_1_l by lia.
  apply u64_small. split; [apply Z.lt_le_incl, pow2_pos; lia | apply pow2_lt; lia].
Qed.

Lemma shl64_high (x n : Z) : 64 <= n -> shl64 x n = 0.
Proof.
  intros. rewrite shl64_mul by lia. unfold u64.
  rewrite (pow2_split 64 n) by lia.
  rewrite Z.mul_assoc. apply Z_mod_mult.
Qed.

Lemma shr64_div (x n : Z) : 0 <= n -> shr64 x n = x / 2 ^ n.
Proof. intros; unfold shr64; apply Z.shiftr_div_pow2; lia. Qed.

(** A field mask: [n] ones shifted up by [m]. *)
Lemma land_field (x n m : Z) :
  0 <= m ->
  Z.land x (Z.shiftl (Z.ones n) m) = Z.shiftl (Z.land (Z.shiftr x m) (Z.ones n)) m.
Proof.
  intros Hm. apply Z.bits_inj'. intros i Hi.
  rewrite Z.land_spec.
  destruct (Z.lt_ge_cases i m) as [Hlt | Hge].
  - rewrite !Z.shiftl_spec_low by lia. apply andb_false_r.
  - rewrite !Z.shiftl_spec by lia. rewrite Z.land_spec, Z.shiftr_spec by lia.
    f_equal. f_equal. lia.
Qed.

Lemma land_field_arith (x n m : Z) :
  0 <= n -> 0 <= m ->
  Z.land x ((2 ^ n - 1) * 2 ^ m) = (x / 2 ^ m) mod 2 ^ n * 2 ^ m.
Proof.
  intros Hn Hm.
  replace (2 ^ n - 1) with (Z.ones n) by (rewrite Z.ones_equiv; lia).
  rewrite <- Z.shiftl_mul_pow2 by lia.
  rewrite land_field by lia.
  rewrite Z.shiftl_mul_pow2, Z.land_ones, Z.shiftr_div_pow2 by lia.
  reflexivity.
Qed.

Lemma land_low_mask (x n : Z) : 0 <= n -> Z.land x (2 ^ n - 1) = x mod 2 ^ n.
Proof.
  intros. replace (2 ^ n - 1) with (Z.ones n) by (rewrite Z.ones_equiv; lia).
  apply Z.land_ones; lia.
Qed.

(** Multiples of a power of two survive the 64-bit wrap. *)
Lemma u64_multiple (x s : Z) :
  0 <= s <= 64 -> (2 ^ s | x) -> (2 ^ s | u64 x).
Proof.
  intros Hs Hx. unfold u64.
  rewrite Z.mod_eq by lia.
  apply Z.divide_sub_r; [assumption |].
  apply Z.divide_mul_l. exists (2 ^ (64 - s)). apply pow2_split; lia.
Qed.

Lemma multiple_gap (a b p : Z) :
  0 < p -> (p | a) -> (p | b) -> a < b -> a + p <= b.
Proof.
  intros Hp [ka Ha] [kb Hb] Hlt. subst.
  assert (ka < kb) by nia.
  replace (ka * p + p) with ((ka + 1) * p) by ring.
  apply Z.mul_le_mono_nonneg_r; lia.
Qed.

Lemma multiple_top (a s : Z) :
  0 <= s <= 64 -> (2 ^ s | a) -> a < 2 ^ 64 -> a + 2 ^ s <= 2 ^ 64.
Proof.
  intros Hs Ha Hlt. apply multiple_gap; try assumption.
  - apply pow2_pos; lia.
  - exists (2 ^ (64 - s)). apply pow2_split; lia.
Qed.

End MachFacts.

(* ================================================================= *)
(** ** The layout derived by [update] *)

Section LayoutFacts.

Lemma ones_value (n : Z) : 0 <= n <= 64 -> u64 (shl64 1 n - 1) = 2 ^ n - 1.
Proof.
  intros Hn. destruct (Z.eq_dec n 64) as [-> | Hne].
  - reflexivity.
  - rewrite shl64_one_low by lia. apply u64_small.
    pose proof (pow2_pos n). pose proof (pow2_lt n 64). lia.
Qed.

Lemma field_in_place (n m : Z) :
  0 <= n -> 0 <= m -> n + m <= 64 ->
  shl64 (2 ^ n - 1) m = (2 ^ n - 1) * 2 ^ m.
Proof.
  intros Hn Hm Hnm. rewrite shl64_mul by lia. apply u64_small.
  pose proof (pow2_pos n Hn). pose proof (pow2_pos m Hm).
  pose proof (pow2_le (n + m) 64).
  rewrite Z.pow_add_r in * by lia. nia.
Qed.

Lemma idLen_exact (c : UidGeneratorConfig) :
  wf_config c -> valid_widths c ->
  idLen c = EpochLen c + SrvLen c + CntLen c.
Proof.
  unfold wf_config, valid_widths, is_u8, idLen.
  intros (He & Hs & Hc & _) Hv.
  rewrite (u8_small (EpochLen c + SrvLen c)) by lia.
  apply u8_small; lia.
Qed.

(** [update] on widths that fit: it succeeds, keeps what the caller set
    and derives the layout. *)
Lemma update_layout (c : UidGeneratorConfig) :
  wf_config c -> valid_widths c ->
  exists c',
    update c = inr c' /\ layout c' /\
    EpochLen c' = EpochLen c /\ SrvLen c' = SrvLen c /\
    CntLen c' = CntLen c /\ SrvID c' = SrvID c /\
    EpochStart c' = EpochStart c /\ TruncStr c' = TruncStr c.
Proof.
  intros Hwf Hv. pose proof (idLen_exact c Hwf Hv) as Hid.
  unfold wf_config, valid_widths, is_u8 in *.
  destruct Hwf as (He & Hs & Hc & _).
  unfold update. rewrite Hid.
  destruct (EpochLen c + SrvLen c + CntLen c >? 64) eqn:Hgt; [lia |].
  eexists. split; [reflexivity |]. split; [| repeat split].
  assert (Hsh : u8 (SrvLen c + CntLen c) = SrvLen c + CntLen c)
    by (apply u8_small; lia).
  constructor; cbn [EpochLen SrvLen CntLen epochShift epochMask epochIota
                    maxSrv srvMask maxCnt cntMask]; try lia.
  - rewrite Hsh, ones_value by lia. apply field_in_place; lia.
  - rewrite Hsh. rewrite shl64_mul, Z.mul_1_l by lia. reflexivity.
  - apply ones_value; lia.
  - rewrite ones_value by lia. apply field_in_place; lia.
  - apply ones_value; lia.
Qed.

End LayoutFacts.

(* ================================================================= *)
(** ** Construction: which configurations are accepted *)

(** C3 (defect in the code).  [update] adds the three widths in [uint8]
    arithmetic, so a sum of 256 wraps to 0 and passes the length check:
    widths 200 + 0 + 56 exceed 64 bits, yet [NewUidGenerator] returns a
    generator instead of [ErrTooLongID]. *)
Theorem NewUidGenerator_length_check_wraps :
  let c := rawConfig 200 0 56 20 false 0 0 in
  wf_config c /\
  EpochLen c + SrvLen c + CntLen c > 64 /\
  idLen c = 0 /\
  exists gen, NewUidGenerator c 0 = inr gen.
Proof.
  cbv zeta. split; [| split; [| split]].
  - unfold wf_config, is_u8, is_i64; cbn; lia.
  - cbn; lia.
  - reflexivity.
  - eexists. vm_compute. reflexivity.
Qed.

(** C9.  For widths summing to at most 64 and a server identity of at
    least [2^SrvLen], [NewUidGenerator] fails with [ErrTooBigServerID]. *)
Theorem NewUidGenerator_rejects_big_server
        (c : UidGeneratorConfig) (prevID : UniqueID) :
  wf_config c ->
  valid_widths c ->
  2 ^ SrvLen c <= SrvID c ->
  NewUidGenerator c prevID = inl ErrTooBigServerID.
Proof.
  intros Hwf Hv Hbig.
  destruct (update_layout c Hwf Hv)
    as (c' & Hup & Hlay & _ & Hsl & _ & Hid & _).
  unfold NewUidGenerator. rewrite Hup.
  destruct Hwf as (_ & Hs & _ & _ & _ & Hsrv).
  unfold is_u8, is_i64 in *.
  assert (Hlt : SrvLen c < 63).
  { destruct (Z.lt_ge_cases (SrvLen c) 63) as [H | H]; [assumption |].
    pose proof (pow2_le 63 (SrvLen c)). lia. }
  rewrite (lay_maxsrv _ Hlay), Hsl, Hid.
  pose proof (pow2_pos (SrvLen c)). pose proof (pow2_lt (SrvLen c) 63).
  rewrite i64_small by lia.
  destruct (SrvID c >? 2 ^ SrvLen c - 1) eqn:Hcmp; [reflexivity | lia].
Qed.

Lemma NewUidGenerator_rejects_big_server_witness :
  NewUidGenerator (rawConfig 41 10 12 20 false 1288834974 1024) 0
  = inl ErrTooBigServerID.
Proof.
  apply NewUidGenerator_rejects_big_server.
  - unfold wf_config, is_u8, is_i64; cbn; lia.
  - unfold valid_widths; cbn; lia.
  - cbn; lia.
Defined.

(* ================================================================= *)
(** ** What a call leaves untouched *)

Section Frame.

Lemma NextID_cfg (g : UidGenerator) (t : Z) : cfg (snd (NextID g t)) = cfg g.
Proof.
  unfold NextID; cbn.
  destruct (_ <=? _); [destruct (_ >? _) |]; reflexivity.
Qed.

Lemma NextID_srvID (g : UidGenerator) (t : Z) :
  srvID (snd (NextID g t)) = srvID g.
Proof.
  unfold NextID; cbn.
  destruct (_ <=? _); [destruct (_ >? _) |]; reflexivity.
Qed.

Lemma NextID_id (g : UidGenerator) (t : Z) :
  fst (NextID g t) = currentID (snd (NextID g t)).
Proof. reflexivity. Qed.

Lemma run_cons (g : UidGenerator) (t : Z) (ts : list Z) :
  run g (t :: ts) =
  (fst (NextID g t) :: fst (run (snd (NextID g t)) ts),
   snd (run (snd (NextID g t)) ts)).
Proof.
  cbn [run]. destruct (NextID g t) as [id g1]. cbn [fst snd].
  destruct (run g1 ts) as [ids g2]. reflexivity.
Qed.

Lemma run_cfg (ts : list Z) :
  forall g, cfg (snd (run g ts)) = cfg g.
Proof.
  induction ts as [| t ts IH]; intros g; [reflexivity |].
  rewrite run_cons; cbn [snd]. rewrite IH. apply NextID_cfg.
Qed.

Lemma run_srvID (ts : list Z) :
  forall g, srvID (snd (run g ts)) = srvID g.
Proof.
  induction ts as [| t ts IH]; intros g; [reflexivity |].
  rewrite run_cons; cbn [snd]. rewrite IH. apply NextID_srvID.
Qed.

(** Every ID a generator issues is the 64-bit sum of the stored epoch,
    the server value fixed at construction and the stored counter. *)
Lemma issued_id_shape (g : UidGenerator) (ts : list Z) (t : Z) :
  srvID (snd (NextID (snd (run g ts)) t)) = srvID g /\
  fst (NextID (snd (run g ts)) t)
  = u64 (u64 (epoch (snd (NextID (snd (run g ts)) t)) + srvID g)
         + cnt (snd (NextID (snd (run g ts)) t))).
Proof.
  assert (Hsrv : srvID (snd (NextID (snd (run g ts)) t)) = srvID g)
    by (rewrite NextID_srvID; apply run_srvID).
  split; [exact Hsrv |].
  rewrite NextID_id. unfold currentID. rewrite Hsrv. reflexivity.
Qed.

End Frame.

(** C10.  A negative server identity passes construction whenever the
    width check does: the comparison [SrvID > int64(maxSrv)] never holds
    for it.  The generator stores [SrvID << CntLen] reinterpreted as
    [uint64], and on every call of every call sequence the returned ID is
    the 64-bit sum of the stored epoch, that value and the counter. *)
Theorem NewUidGenerator_accepts_negative_server
        (c : UidGeneratorConfig) (prevID : UniqueID) :
  wf_config c ->
  idLen c <= 64 ->
  SrvID c < 0 ->
  exists gen,
    NewUidGenerator c prevID = inr gen /\
    srvID gen = u64 (shl_i64 (SrvID c) (CntLen c)) /\
    forall (ts : list Z) (t : Z),
      let before := snd (run gen ts) in
      let after := snd (NextID before t) in
      srvID after = srvID gen /\
      fst (NextID before t)
      = u64 (u64 (epoch after + u64 (shl_i64 (SrvID c) (CntLen c))) + cnt after).
Proof.
  intros Hwf Hlen Hneg.
  unfold NewUidGenerator, update.
  destruct (idLen c >? 64) eqn:Hgt; [lia |].
  cbn [SrvID maxSrv CntLen epochMask cntMask].
  assert (Hmax : -1 <= i64 (u64 (shl64 1 (SrvLen c) - 1))).
  { destruct Hwf as (_ & Hs & _). unfold is_u8 in Hs.
    destruct (Z.lt_ge_cases (SrvLen c) 64) as [Hlo | Hhi].
    - rewrite ones_value by lia.
      destruct (Z.eq_dec (SrvLen c) 63) as [-> | Hne]; [cbv; discriminate |].
      pose proof (pow2_pos (SrvLen c)). pose proof (pow2_lt (SrvLen c) 63).
      rewrite i64_small; lia.
    - rewrite shl64_high by lia. cbv; discriminate. }
  destruct (SrvID c >? _) eqn:Hcmp; [lia |].
  eexists. split; [reflexivity |]. split; [reflexivity |].
  intros ts t. cbv zeta.
  match goal with
  | |- context [run ?g ts] => exact (issued_id_shape g ts t)
  end.
Qed.

Lemma NewUidGenerator_accepts_negative_server_witness :
  exists gen,
    NewUidGenerator (rawConfig 41 10 12 20 false 1288834974 (-1)) 0 = inr gen /\
    srvID gen = u64 (shl_i64 (-1) 12) /\
    forall (ts : list Z) (t : Z),
      let before := snd (run gen ts) in
      let after := snd (NextID before t) in
      srvID after = srvID gen /\
      fst (NextID before t)
      = u64 (u64 (epoch after + u64 (shl_i64 (-1) 12)) + cnt after).
Proof.
  apply (NewUidGenerator_accepts_negative_server
           (rawConfig 41 10 12 20 false 1288834974 (-1)) 0).
  - unfold wf_config, is_u8, is_i64; cbn; lia.
  - vm_compute; discriminate.
  - cbn; lia.
Defined.

(* ================================================================= *)
(** ** The generator invariant *)

Section Invariant.

Lemma field_sum_bound (s c S C : Z) :
  0 <= S -> 0 <= C -> 0 <= s < 2 ^ S -> 0 <= c < 2 ^ C ->
  0 <= s * 2 ^ C + c < 2 ^ (S + C).
Proof.
  intros HS HC Hs Hc. rewrite Z.pow_add_r by lia.
  pose proof (pow2_pos C HC). nia.
Qed.

(** Masking with [epochMask] yields a 64-bit multiple of the quantum. *)
Lemma masked_epoch (c : UidGeneratorConfig) (x : Z) :
  layout c ->
  0 <= Z.land x (epochMask c) <= epochMask c /\
  epochMask c < 2 ^ 64 /\
  (2 ^ epochShift c | Z.land x (epochMask c)).
Proof.
  intros L. destruct L as [He Hs Hc Ht Hsh Hem _ _ _ _ _].
  assert (Hsh0 : 0 <= epochShift c) by lia.
  rewrite Hem, land_field_arith by lia.
  pose proof (Z.mod_pos_bound (x / 2 ^ epochShift c) (2 ^ EpochLen c)
                              (pow2_pos _ He)) as Hm.
  pose proof (pow2_pos _ Hsh0) as Hp.
  pose proof (pow2_le (EpochLen c + epochShift c) 64) as Hle.
  rewrite Z.pow_add_r in Hle by lia.
  split; [nia |]. split; [nia |].
  exists ((x / 2 ^ epochShift c) mod 2 ^ EpochLen c). reflexivity.
Qed.

Lemma masked_cnt (c : UidGeneratorConfig) (x : Z) :
  layout c -> 0 <= Z.land x (cntMask c) <= maxCnt c.
Proof.
  intros L. rewrite (lay_cmask _ L), (lay_maxcnt _ L).
  rewrite land_low_mask by apply (lay_cnt _ L).
  pose proof (Z.mod_pos_bound x (2 ^ CntLen c) (pow2_pos _ (lay_cnt _ L))).
  lia.
Qed.

(** What a successful construction from fitting widths and a non-negative
    server identity establishes. *)
Lemma NewUidGenerator_inv (c : UidGeneratorConfig) (prevID : UniqueID)
      (g : UidGenerator) :
  wf_config c -> valid_widths c -> 0 <= SrvID c ->
  NewUidGenerator c prevID = inr g ->
  layout (cfg g) /\
  SrvID (cfg g) = SrvID c /\ EpochStart (cfg g) = EpochStart c /\
  0 <= SrvID (cfg g) < 2 ^ SrvLen (cfg g) /\
  srvID g = SrvID (cfg g) * 2 ^ CntLen (cfg g) /\
  epoch g = Z.land prevID (epochMask (cfg g)) /\
  cnt g = Z.land prevID (cntMask (cfg g)).
Proof.
  intros Hwf Hv Hnn Hnew.
  destruct (update_layout c Hwf Hv)
    as (c' & Hup & L & Hel & Hsl & Hcl & Hid & Hst & _).
  unfold NewUidGenerator in Hnew. rewrite Hup in Hnew.
  destruct (SrvID c' >? i64 (maxSrv c')) eqn:Hcmp; [discriminate |].
  inversion Hnew; subst g; clear Hnew. cbn [cfg epoch srvID cnt].
  pose proof (lay_srv _ L) as HS. pose proof (lay_cnt _ L) as HC.
  pose proof (lay_epoch _ L) as HE. pose proof (lay_total _ L) as HT.
  assert (Hrange : 0 <= SrvID c' < 2 ^ SrvLen c').
  { rewrite (lay_maxsrv _ L) in Hcmp. split; [lia |].
    destruct (Z.eq_dec (SrvLen c') 64) as [E64 | Hne].
    - rewrite E64 in Hcmp. change (i64 (2 ^ 64 - 1)) with (-1) in Hcmp. lia.
    - pose proof (pow2_pos _ HS). pose proof (pow2_le (SrvLen c') 63).
      rewrite i64_small in Hcmp by lia. lia. }
  split; [exact L |].
  repeat split; try assumption; try lia.
  unfold shl_i64. rewrite u64_i64, Z.shiftl_mul_pow2 by lia.
  apply u64_small.
  pose proof (field_sum_bound (SrvID c') 0 (SrvLen c') (CntLen c')
                              HS HC Hrange) as Hb.
  pose proof (pow2_pos _ HC).
  pose proof (pow2_le (SrvLen c' + CntLen c') 64). lia.
Qed.

(** Construction succeeds on fitting widths and a server identity that
    fits its field, when that field is narrower than 64 bits. *)
Lemma NewUidGenerator_succeeds (c : UidGeneratorConfig) (prevID : UniqueID) :
  wf_config c -> valid_widths c -> SrvLen c <= 63 ->
  0 <= SrvID c < 2 ^ SrvLen c ->
  exists g, NewUidGenerator c prevID = inr g.
Proof.
  intros Hwf Hv H63 Hsrv.
  destruct (update_layout c Hwf Hv)
    as (c' & Hup & L & _ & Hsl & _ & Hid & _).
  unfold NewUidGenerator. rewrite Hup.
  rewrite (lay_maxsrv _ L), Hsl, Hid.
  destruct Hwf as (_ & Hs & _). unfold is_u8 in Hs.
  pose proof (pow2_pos (SrvLen c)). pose proof (pow2_le (SrvLen c) 63).
  rewrite i64_small by lia.
  destruct (SrvID c >? 2 ^ SrvLen c - 1) eqn:Hcmp; [lia |].
  eexists; reflexivity.
Qed.

Lemma NewUidGenerator_ok (c : UidGeneratorConfig) (prevID : UniqueID)
      (g : UidGenerator) :
  wf_config c -> valid_widths c -> SrvLen c + CntLen c <= 63 ->
  0 <= SrvID c ->
  NewUidGenerator c prevID = inr g ->
  gen_ok g /\ SrvID (cfg g) = SrvID c /\ CntLen (cfg g) = CntLen c.
Proof.
  intros Hwf Hv H63 Hnn Hnew.
  destruct (NewUidGenerator_inv c prevID g Hwf Hv Hnn Hnew)
    as (L & Hid & _ & Hrange & Hsrv & He & Hc).
  assert (Hcl : CntLen (cfg g) = CntLen c /\ SrvLen (cfg g) = SrvLen c).
  { destruct (update_layout c Hwf Hv) as (c' & Hup & _ & _ & Hsl & Hcl & _).
    unfold NewUidGenerator in Hnew. rewrite Hup in Hnew.
    destruct (_ >? _); [discriminate |]. inversion Hnew. cbn. lia. }
  split; [| lia].
  destruct (masked_epoch (cfg g) prevID L) as (Hb & Hm & Hd).
  constructor; try assumption.
  - rewrite (lay_shift _ L). lia.
  - rewrite He. lia.
  - rewrite He. assumption.
  - rewrite Hc. apply masked_cnt; assumption.
Qed.

Lemma gen_ok_iota (g : UidGenerator) :
  gen_ok g ->
  epochIota (cfg g) = 2 ^ epochShift (cfg g) /\
  0 <= epochShift (cfg g) /\
  0 < 2 ^ epochShift (cfg g) < 2 ^ 64.
Proof.
  intros [L H63 _ _ _ _ _].
  assert (H0 : 0 <= epochShift (cfg g)).
  { rewrite (lay_shift _ L).
    pose proof (lay_srv _ L). pose proof (lay_cnt _ L). lia. }
  pose proof (pow2_pos _ H0). pose proof (pow2_lt (epochShift (cfg g)) 64).
  rewrite (lay_iota _ L), u64_small by lia. lia.
Qed.

(** Below the epoch quantum the ID holds the server value and the
    counter, and nothing carries into the epoch. *)
Lemma gen_ok_low_bits (g : UidGenerator) :
  gen_ok g ->
  0 <= srvID g /\ 0 <= cnt g < 2 ^ CntLen (cfg g) /\
  srvID g + cnt g < 2 ^ epochShift (cfg g).
Proof.
  intros [L H63 He Hm Hc Hr Hs].
  pose proof (lay_srv _ L) as HS. pose proof (lay_cnt _ L) as HC.
  rewrite (lay_maxcnt _ L) in Hc.
  pose proof (field_sum_bound (SrvID (cfg g)) (cnt g) _ _ HS HC Hr) as Hb.
  pose proof (pow2_pos _ HC).
  rewrite (lay_shift _ L), Hs. split; [nia | lia].
Qed.

Lemma currentID_sum (g : UidGenerator) :
  gen_ok g -> currentID g = epoch g + srvID g + cnt g.
Proof.
  intros Hok. destruct (gen_ok_low_bits g Hok) as (Hs & Hc & Hlow).
  destruct (gen_ok_iota g Hok) as (_ & H0 & Hp).
  pose proof (ok_epoch g Hok) as He.
  pose proof (multiple_top (epoch g) (epochShift (cfg g))
                ltac:(pose proof (ok_shift g Hok); lia)
                (ok_epoch_mult g Hok) ltac:(lia)) as Htop.
  unfold currentID. rewrite (u64_small (epoch g + srvID g)) by lia.
  apply u64_small. lia.
Qed.

Lemma NextID_ok (g : UidGenerator) (t : Z) :
  gen_ok g -> gen_ok (snd (NextID g t)).
Proof.
  intros Hok. destruct (gen_ok_iota g Hok) as (Hio & H0 & Hp).
  destruct Hok as [L H63 He Hm Hc Hr Hs].
  destruct (masked_epoch (cfg g)
              (shl64 (u64 (shr_i64 t (IntervalLen (cfg g))))
                     (epochShift (cfg g))) L) as (Hb & Hlt & Hd).
  assert (Hmax : 0 <= maxCnt (cfg g)).
  { rewrite (lay_maxcnt _ L). pose proof (pow2_pos _ (lay_cnt _ L)). lia. }
  unfold NextID, candidateEpoch; cbn [snd].
  destruct (_ <=? _) eqn:Hle; [destruct (_ >? _) eqn:Hgt |];
    constructor; cbn [cfg epoch srvID cnt]; try assumption; try lia.
  - apply u64_range.
  - apply u64_multiple; [lia |]. rewrite Hio.
    apply Z.divide_add_r; [assumption | apply Z.divide_refl].
  - pose proof (u64_range (cnt g + 1)). lia.
Qed.

Lemma run_ok (ts : list Z) :
  forall g, gen_ok g -> gen_ok (snd (run g ts)).
Proof.
  induction ts as [| t ts IH]; intros g Hok; [exact Hok |].
  rewrite run_cons; cbn [snd]. apply IH, NextID_ok, Hok.
Qed.

End Invariant.

(* ================================================================= *)
(** ** The fields of an issued ID *)

Section Fields.

Lemma ServerID_currentID (g : UidGenerator) :
  gen_ok g -> ServerID g (currentID g) = SrvID (cfg g).
Proof.
  intros Hok. rewrite (currentID_sum g Hok).
  destruct (gen_ok_low_bits g Hok) as (_ & Hc & _).
  destruct Hok as [L H63 He [k Hk] _ Hr Hs].
  pose proof (lay_srv _ L) as HS. pose proof (lay_cnt _ L) as HC.
  pose proof (pow2_pos _ HS) as HpS. pose proof (pow2_pos _ HC) as HpC.
  unfold ServerID. rewrite (lay_smask _ L), land_field_arith by lia.
  rewrite Hk, Hs, (lay_shift _ L), Z.pow_add_r by lia.
  replace (k * (2 ^ SrvLen (cfg g) * 2 ^ CntLen (cfg g))
           + SrvID (cfg g) * 2 ^ CntLen (cfg g) + cnt g)
    with ((k * 2 ^ SrvLen (cfg g) + SrvID (cfg g)) * 2 ^ CntLen (cfg g) + cnt g)
    by ring.
  rewrite Z.div_add_l, (Z.div_small (cnt g)), Z.add_0_r by lia.
  rewrite Z.add_comm, Z.mod_add, Z.mod_small by lia.
  pose proof (field_sum_bound (SrvID (cfg g)) 0 _ _ HS HC Hr
                              ltac:(lia)) as Hb.
  pose proof (lay_shift _ L) as Hsh.
  pose proof (pow2_le (SrvLen (cfg g) + CntLen (cfg g)) 63 ltac:(lia)).
  rewrite i64_small by lia.
  unfold shr_i64. rewrite Z.shiftr_div_pow2 by lia.
  apply Z.div_mul; lia.
Qed.

Lemma epochField_currentID (g : UidGenerator) :
  gen_ok g ->
  epochField g (currentID g) = epoch g / 2 ^ epochShift (cfg g).
Proof.
  intros Hok. rewrite (currentID_sum g Hok).
  destruct (gen_ok_low_bits g Hok) as (Hs & Hc & Hlow).
  destruct (gen_ok_iota g Hok) as (_ & H0 & Hp).
  destruct (ok_epoch_mult g Hok) as [k Hk].
  unfold epochField. rewrite shr64_div by lia.
  rewrite Hk, <- Z.add_assoc, Z.div_add_l by lia.
  rewrite Z.div_small by lia. rewrite Z.div_mul by lia. lia.
Qed.

Lemma Count_currentID (g : UidGenerator) :
  gen_ok g -> Count g (currentID g) = cnt g.
Proof.
  intros Hok. rewrite (currentID_sum g Hok).
  destruct (gen_ok_low_bits g Hok) as (_ & Hc & _).
  destruct Hok as [L H63 He [k Hk] _ Hr Hs].
  pose proof (lay_srv _ L) as HS. pose proof (lay_cnt _ L) as HC.
  pose proof (pow2_pos _ HC) as HpC.
  unfold Count.
  rewrite (lay_cmask _ L), (lay_maxcnt _ L), land_low_mask by lia.
  rewrite Hk, Hs, (lay_shift _ L), Z.pow_add_r by lia.
  replace (k * (2 ^ SrvLen (cfg g) * 2 ^ CntLen (cfg g))
           + SrvID (cfg g) * 2 ^ CntLen (cfg g) + cnt g)
    with (cnt g + (k * 2 ^ SrvLen (cfg g) + SrvID (cfg g)) * 2 ^ CntLen (cfg g))
    by ring.
  rewrite Z.mod_add, Z.mod_small by lia.
  apply i64_small.
  pose proof (lay_shift _ L) as Hsh.
  pose proof (pow2_le (CntLen (cfg g)) 63 ltac:(lia)). lia.
Qed.

Lemma ServerID_cfg (g1 g2 : UidGenerator) (id : UniqueID) :
  cfg g1 = cfg g2 -> ServerID g1 id = ServerID g2 id.
Proof. unfold ServerID; intros ->; reflexivity. Qed.

Lemma epochField_cfg (g1 g2 : UidGenerator) (id : UniqueID) :
  cfg g1 = cfg g2 -> epochField g1 id = epochField g2 id.
Proof. unfold epochField; intros ->; reflexivity. Qed.

Lemma Count_cfg (g1 g2 : UidGenerator) (id : UniqueID) :
  cfg g1 = cfg g2 -> Count g1 id = Count g2 id.
Proof. unfold Count; intros ->; reflexivity. Qed.

Lemma run_ServerID (ts : list Z) :
  forall g, gen_ok g ->
    Forall (fun id => ServerID g id = SrvID (cfg g)) (fst (run g ts)).
Proof.
  induction ts as [| t ts IH]; intros g Hok; [constructor |].
  rewrite run_cons; cbn [fst].
  pose proof (NextID_ok g t Hok) as Hok1.
  pose proof (NextID_cfg g t) as Hcfg.
  constructor.
  - rewrite NextID_id, <- (ServerID_cfg _ g _ Hcfg), <- Hcfg.
    apply ServerID_currentID, Hok1.
  - specialize (IH _ Hok1). rewrite Hcfg in IH.
    eapply Forall_impl; [| exact IH].
    intros id Hid. rewrite <- (ServerID_cfg _ g _ Hcfg). exact Hid.
Qed.

End Fields.

(** C6, counterexample.  Widths 0 + 8 + 56 add up to 64 and the server
    identity 128 is below [2^8], but the server field then reaches bit 63:
    [ServerID] converts the masked value to [int64] before shifting and
    reads the identity back as -128. *)
Lemma ServerID_sign_bit_counterexample :
  let c := rawConfig 0 8 56 20 false 0 128 in
  wf_config c /\ valid_widths c /\ 0 <= SrvID c < 2 ^ SrvLen c /\
  exists g, NewUidGenerator c 0 = inr g /\
            ServerID g (fst (NextID g 0)) = -128 /\
            ServerID g (fst (NextID g 0)) <> SrvID c.
Proof.
  cbv zeta. split; [| split; [| split]].
  - unfold wf_config, is_u8, is_i64; cbn; lia.
  - unfold valid_widths; cbn; lia.
  - cbn; lia.
  - eexists. split; [vm_compute; reflexivity |].
    split; [vm_compute; reflexivity | vm_compute; discriminate].
Qed.

(** A 64-bit server field cannot be used at all: [int64(maxSrv)] is -1
    and every non-negative identity is turned away. *)
Example NewUidGenerator_full_width_server :
  NewUidGenerator (rawConfig 0 64 0 20 false 0 0) 0 = inl ErrTooBigServerID.
Proof. vm_compute. reflexivity. Qed.

(** C6, amended.  For widths summing to at most 64, a server and counter
    field that together stay below bit 63, and [0 <= SrvID < 2^SrvLen],
    construction succeeds and every ID of every call sequence has
    [ServerID] equal to the configured identity. *)
Theorem ServerID_of_issued (c : UidGeneratorConfig) (prevID : UniqueID) :
  wf_config c ->
  valid_widths c ->
  SrvLen c + CntLen c <= 63 ->
  0 <= SrvID c < 2 ^ SrvLen c ->
  exists g,
    NewUidGenerator c prevID = inr g /\
    forall ts : list Z,
      Forall (fun id => ServerID g id = SrvID c) (fst (run g ts)).
Proof.
  intros Hwf Hv H63 Hsrv.
  assert (HS : SrvLen c <= 63).
  { destruct Hwf as (_ & _ & Hc & _). unfold is_u8 in Hc. lia. }
  destruct (NewUidGenerator_succeeds c prevID Hwf Hv HS Hsrv) as [g Hg].
  exists g. split; [exact Hg |]. intros ts.
  destruct (NewUidGenerator_ok c prevID g Hwf Hv H63 ltac:(lia) Hg)
    as (Hok & Hid & _).
  rewrite <- Hid. apply run_ServerID, Hok.
Qed.

Lemma ServerID_of_issued_witness :
  exists g,
    NewUidGenerator (rawConfig 41 10 12 20 false 1288834974 5) 0 = inr g /\
    forall ts : list Z,
      Forall (fun id => ServerID g id = 5) (fst (run g ts)).
Proof.
  apply (ServerID_of_issued (rawConfig 41 10 12 20 false 1288834974 5) 0).
  - unfold wf_config, is_u8, is_i64; cbn; lia.
  - unfold valid_widths; cbn; lia.
  - cbn; lia.
  - cbn; lia.
Defined.

(* ================================================================= *)
(** ** One call of [NextID], branch by branch *)

Section Step.

Variable g : UidGenerator.
Variable t : Z.
Hypothesis Hok : gen_ok g.

Lemma cnt_succ_exact : u64 (cnt g + 1) = cnt g + 1.
Proof.
  destruct (gen_ok_low_bits g Hok) as (_ & Hc & _).
  pose proof (ok_layout g Hok) as L.
  pose proof (lay_shift _ L). pose proof (lay_srv _ L).
  pose proof (lay_cnt _ L). pose proof (ok_shift g Hok).
  pose proof (pow2_le (CntLen (cfg g)) 63 ltac:(lia)).
  apply u64_small. lia.
Qed.

(** The exhaustion branch. *)
Lemma NextID_exhausted :
  exhausted g t = true ->
  snd (NextID g t)
  = mkGen (cfg g) (u64 (epoch g + epochIota (cfg g))) (srvID g) 0.
Proof.
  unfold exhausted, NextID. intros H.
  apply andb_true_iff in H as [H1 H2]. cbn [snd].
  rewrite H1, H2. reflexivity.
Qed.

(** The plain branch: same interval (or an earlier one), counter left. *)
Lemma NextID_counted :
  candidateEpoch (cfg g) t <= epoch g ->
  cnt g + 1 <= maxCnt (cfg g) ->
  snd (NextID g t) = mkGen (cfg g) (epoch g) (srvID g) (cnt g + 1).
Proof.
  intros H1 H2. unfold NextID. cbn [snd].
  rewrite cnt_succ_exact.
  destruct (_ <=? _) eqn:Hle; [| lia].
  destruct (_ >? _) eqn:Hgt; [lia | reflexivity].
Qed.

(** The branch of a new interval. *)
Lemma NextID_advanced :
  epoch g < candidateEpoch (cfg g) t ->
  snd (NextID g t) = mkGen (cfg g) (candidateEpoch (cfg g) t) (srvID g) 0.
Proof.
  intros H1. unfold NextID. cbn [snd].
  destruct (_ <=? _) eqn:Hle; [lia | reflexivity].
Qed.

(** The three branches cover every call. *)
Lemma NextID_cases :
  (exhausted g t = true /\ cnt g + 1 > maxCnt (cfg g) /\
   candidateEpoch (cfg g) t <= epoch g)
  \/ (exhausted g t = false /\ candidateEpoch (cfg g) t <= epoch g /\
      cnt g + 1 <= maxCnt (cfg g))
  \/ (exhausted g t = false /\ epoch g < candidateEpoch (cfg g) t).
Proof.
  unfold exhausted. rewrite cnt_succ_exact.
  destruct (_ <=? _) eqn:Hle; destruct (_ >? _) eqn:Hgt; cbn [andb].
  - left. repeat split; lia.
  - right; left. repeat split; lia.
  - right; right. split; [reflexivity | lia].
  - right; right. split; [reflexivity | lia].
Qed.

Lemma candidate_multiple :
  (2 ^ epochShift (cfg g) | candidateEpoch (cfg g) t).
Proof.
  unfold candidateEpoch. apply masked_epoch, (ok_layout g Hok).
Qed.

(** A call that leaves the stored epoch where it was took the plain
    branch. *)
Lemma same_epoch_counted :
  epoch (snd (NextID g t)) = epoch g ->
  cnt (snd (NextID g t)) = cnt g + 1 /\ cnt g + 1 <= maxCnt (cfg g).
Proof.
  intros Hsame.
  destruct (gen_ok_iota g Hok) as (Hio & H0 & Hp).
  pose proof (ok_epoch g Hok) as He.
  pose proof (multiple_top (epoch g) (epochShift (cfg g))
                ltac:(pose proof (ok_shift g Hok); lia)
                (ok_epoch_mult g Hok) ltac:(lia)) as Htop.
  destruct NextID_cases as [(Hx & _) | [(_ & H1 & H2) | (_ & H1)]].
  - rewrite (NextID_exhausted Hx) in Hsame. cbn [epoch] in Hsame.
    rewrite Hio in Hsame. exfalso.
    destruct (Z.eq_dec (epoch g + 2 ^ epochShift (cfg g)) (2 ^ 64)) as [E | N].
    + rewrite E in Hsame. change (u64 (2 ^ 64)) with 0 in Hsame. lia.
    + rewrite u64_small in Hsame by lia. lia.
  - rewrite (NextID_counted H1 H2). cbn [cnt]. lia.
  - rewrite (NextID_advanced H1) in Hsame. cbn [epoch] in Hsame. lia.
Qed.

(** Without a 64-bit wrap of the stored epoch, the ID grows. *)
Lemma NextID_increases :
  (exhausted g t = true -> epoch g + epochIota (cfg g) < 2 ^ 64) ->
  currentID g < fst (NextID g t).
Proof.
  intros Hnw.
  rewrite NextID_id, (currentID_sum g Hok),
    (currentID_sum _ (NextID_ok g t Hok)).
  destruct (gen_ok_low_bits g Hok) as (Hs & Hc & Hlow).
  destruct (gen_ok_iota g Hok) as (Hio & H0 & Hp).
  pose proof (ok_epoch g Hok) as He.
  destruct NextID_cases as [(Hx & _) | [(_ & H1 & H2) | (_ & H1)]].
  - specialize (Hnw Hx). rewrite (NextID_exhausted Hx).
    cbn [epoch srvID cnt]. rewrite u64_small by lia. lia.
  - rewrite (NextID_counted H1 H2). cbn [epoch srvID cnt]. lia.
  - rewrite (NextID_advanced H1). cbn [epoch srvID cnt].
    pose proof (multiple_gap (epoch g) (candidateEpoch (cfg g) t)
                             (2 ^ epochShift (cfg g)) ltac:(lia)
                             (ok_epoch_mult g Hok) candidate_multiple H1).
    lia.
Qed.

End Step.

(* ================================================================= *)
(** ** Call sequences *)

Section Sequences.

Lemma run_length (ts : list Z) :
  forall g, List.length (fst (run g ts)) = List.length ts.
Proof.
  induction ts as [| t ts IH]; intros g; [reflexivity |].
  rewrite run_cons; cbn [fst List.length]. rewrite IH. reflexivity.
Qed.

Lemma run_app (ts1 : list Z) :
  forall g ts2,
    snd (run g (ts1 ++ ts2)) = snd (run (snd (run g ts1)) ts2).
Proof.
  induction ts1 as [| t ts1 IH]; intros g ts2; [reflexivity |].
  rewrite <- app_comm_cons, !run_cons; cbn [snd]. apply IH.
Qed.

Lemma Sorted_lt_le (l : list Z) : Sorted Z.lt l -> Sorted Z.le l.
Proof.
  induction 1 as [| x l Hs IH Hhd]; constructor; [exact IH |].
  destruct Hhd; constructor. lia.
Qed.

(** The IDs of a sequence without epoch wrap grow strictly, starting
    above the value the stored state stands for. *)
Lemma run_increasing (ts : list Z) :
  forall g, gen_ok g -> no_epoch_wrap g ts ->
    Sorted Z.lt (currentID g :: fst (run g ts)).
Proof.
  induction ts as [| t ts IH]; intros g Hok Hnw.
  - repeat constructor.
  - destruct Hnw as [Hstep Hrest].
    rewrite run_cons; cbn [fst].
    constructor.
    + rewrite NextID_id. apply IH; [apply NextID_ok, Hok | exact Hrest].
    + constructor. apply NextID_increases; assumption.
Qed.

(** IDs that all carry the epoch field of the stored state were counted
    one by one. *)
Lemma same_epoch_run (ts : list Z) :
  forall g, gen_ok g ->
    (forall id, In id (fst (run g ts)) ->
                epochField g id = epochField g (currentID g)) ->
    cnt g + Z.of_nat (List.length ts) <= maxCnt (cfg g).
Proof.
  induction ts as [| t ts IH]; intros g Hok Hall.
  - cbn [List.length Z.of_nat]. pose proof (ok_cnt g Hok). lia.
  - rewrite run_cons in Hall; cbn [fst] in Hall.
    pose proof (NextID_ok g t Hok) as Hok1.
    pose proof (NextID_cfg g t) as Hcfg.
    assert (Hfirst : epochField g (currentID (snd (NextID g t)))
                     = epochField g (currentID g))
      by (apply Hall; left; apply NextID_id).
    assert (Hsame : epoch (snd (NextID g t)) = epoch g).
    { rewrite <- (epochField_cfg _ g _ Hcfg) in Hfirst.
      rewrite (epochField_currentID _ Hok1),
        (epochField_currentID _ Hok), Hcfg in Hfirst.
      destruct (gen_ok_iota g Hok) as (_ & H0 & Hp).
      destruct (ok_epoch_mult g Hok) as [k Hk].
      destruct (ok_epoch_mult _ Hok1) as [k1 Hk1]. rewrite Hcfg in Hk1.
      rewrite Hk, Hk1, !Z.div_mul in Hfirst by lia. congruence. }
    destruct (same_epoch_counted g t Hok Hsame) as [Hcnt Hle].
    assert (Hrec : cnt (snd (NextID g t)) + Z.of_nat (List.length ts)
                   <= maxCnt (cfg (snd (NextID g t)))).
    { apply IH; [exact Hok1 |]. intros id Hin.
      rewrite !(epochField_cfg _ g _ Hcfg), Hfirst.
      apply Hall. right. exact Hin. }
    rewrite Hcfg, Hcnt in Hrec. cbn [List.length]. lia.
Qed.

Lemma same_epoch_bound (ts : list Z) (g : UidGenerator) :
  gen_ok g ->
  (forall id id', In id (fst (run g ts)) -> In id' (fst (run g ts)) ->
                  epochField g id = epochField g id') ->
  Z.of_nat (List.length (fst (run g ts))) <= 2 ^ CntLen (cfg g).
Proof.
  intros Hok Hall. rewrite run_length.
  destruct ts as [| t ts].
  - cbn. pose proof (pow2_pos _ (lay_cnt _ (ok_layout g Hok))). lia.
  - rewrite run_cons in Hall; cbn [fst] in Hall.
    pose proof (NextID_ok g t Hok) as Hok1.
    pose proof (NextID_cfg g t) as Hcfg.
    pose proof (same_epoch_run ts _ Hok1) as Hrun.
    rewrite Hcfg, (lay_maxcnt _ (ok_layout g Hok)) in Hrun.
    pose proof (ok_cnt _ Hok1) as Hc.
    cbn [List.length]. rewrite Nat2Z.inj_succ.
    enough (cnt (snd (NextID g t)) + Z.of_nat (List.length ts)
            <= 2 ^ CntLen (cfg g) - 1) by lia.
    apply Hrun. intros id Hin.
    rewrite !(epochField_cfg _ g _ Hcfg).
    apply Hall; [right; exact Hin | left; apply NextID_id].
Qed.

End Sequences.

(* ================================================================= *)
(** ** Monotonicity of the issued IDs *)

(** C1, counterexample.  Widths 42 + 10 + 12 fill all 64 bits.  Seeded
    with a previous ID whose epoch field is at its maximum and whose
    counter is one below the maximum, the second call exhausts the
    counter, [gen.epoch + epochIota] wraps to 0, and the ID falls from
    18446744073705365503 to 4096. *)
Lemma NextID_decreases_on_epoch_wrap :
  let c := rawConfig 42 10 12 20 false 1288834974 1 in
  wf_config c /\ valid_widths c /\ 0 <= SrvID c < 2 ^ SrvLen c /\
  exists g,
    NewUidGenerator c (2 ^ 64 - 2) = inr g /\
    fst (run g [0; 0]) = [18446744073705365503; 4096] /\
    ~ Sorted Z.le (fst (run g [0; 0])).
Proof.
  cbv zeta. split; [| split; [| split]].
  - unfold wf_config, is_u8, is_i64; cbn; lia.
  - unfold valid_widths; cbn; lia.
  - cbn; lia.
  - eexists. split; [vm_compute; reflexivity |].
    assert (E : fst (run (genOf (rawConfig 42 10 12 20 false 1288834974 1)
                                (2 ^ 64 - 2)) [0; 0])
                = [18446744073705365503; 4096]) by (vm_compute; reflexivity).
    split; [exact E |].
    change (~ Sorted Z.le
              (fst (run (genOf (rawConfig 42 10 12 20 false 1288834974 1)
                               (2 ^ 64 - 2)) [0; 0]))).
    rewrite E. intros Hs.
    apply Sorted_inv in Hs as [_ Hhd].
    apply HdRel_inv in Hhd. lia.
Qed.

(** C1, amended.  For a generator built from widths summing to at most
    64, with the server and counter fields below bit 63 and a
    non-negative server identity, and for every sequence of clock
    readings on which no exhaustion step carries the stored epoch past
    [2^64], each returned ID is at least the one returned before it. *)
Theorem NextID_nondecreasing
        (c : UidGeneratorConfig) (prevID : UniqueID) (g : UidGenerator)
        (ts : list Z) :
  wf_config c ->
  valid_widths c ->
  SrvLen c + CntLen c <= 63 ->
  0 <= SrvID c ->
  NewUidGenerator c prevID = inr g ->
  no_epoch_wrap g ts ->
  Sorted Z.le (fst (run g ts)).
Proof.
  intros Hwf Hv H63 Hnn Hnew Hnw.
  destruct (NewUidGenerator_ok c prevID g Hwf Hv H63 Hnn Hnew) as (Hok & _).
  pose proof (run_increasing ts g Hok Hnw) as Hs.
  apply Sorted_inv in Hs as [Hs _].
  apply Sorted_lt_le, Hs.
Qed.

Lemma NextID_nondecreasing_witness :
  Sorted Z.le
    (fst (run (genOf (rawConfig 41 10 12 20 false 1288834974 1) 4094)
              [0; 0; 0; 5000000; 1])).
Proof.
  apply (NextID_nondecreasing
           (rawConfig 41 10 12 20 false 1288834974 1) 4094).
  - unfold wf_config, is_u8, is_i64; cbn; lia.
  - unfold valid_widths; cbn; lia.
  - cbn; lia.
  - cbn; lia.
  - vm_compute; reflexivity.
  - vm_compute. repeat split; intros _; reflexivity.
Defined.

(* ================================================================= *)
(** ** Counter exhaustion *)

(** C5, counterexample.  Widths 0 + 62 + 2 are accepted, but the epoch
    quantum [1 << 64] is 0: the exhaustion branch leaves the stored epoch
    where it was, and five consecutive calls return IDs of one and the
    same epoch tick although [2^CntLen] is 4. *)
Lemma exhaustion_without_epoch_field :
  let c := rawConfig 0 62 2 20 false 0 1 in
  let g := genOf c 0 in
  wf_config c /\ valid_widths c /\ 0 <= SrvID c < 2 ^ SrvLen c /\
  NewUidGenerator c 0 = inr g /\
  fst (run g [0; 0; 0; 0; 0]) = [5; 6; 7; 4; 5] /\
  forallb (fun id => epochField g id =? 0) (fst (run g [0; 0; 0; 0; 0]))
  = true /\
  epoch (snd (run g [0; 0; 0; 0])) = epoch (snd (run g [0; 0; 0])) /\
  2 ^ CntLen c < Z.of_nat (List.length (fst (run g [0; 0; 0; 0; 0]))).
Proof.
  cbv zeta. split; [| split; [| split]].
  - unfold wf_config, is_u8, is_i64; cbn; lia.
  - unfold valid_widths; cbn; lia.
  - vm_compute. split; [discriminate | reflexivity].
  - repeat split; vm_compute; reflexivity.
Qed.

(** C5, amended.  For a generator built from widths summing to at most
    64, with the server and counter fields below bit 63 and a
    non-negative server identity: on any call of any call sequence whose
    candidate epoch is at most the stored epoch and whose incremented
    counter exceeds [2^CntLen - 1], the stored epoch becomes the previous
    one plus [epochIota] (in 64-bit arithmetic), the returned ID carries
    that epoch in its epoch field and 0 in its counter field; and no run
    of consecutive calls whose IDs all have one epoch field is longer
    than [2^CntLen]. *)
Theorem NextID_exhaustion_rolls_epoch
        (c : UidGeneratorConfig) (prevID : UniqueID) (g : UidGenerator) :
  wf_config c ->
  valid_widths c ->
  SrvLen c + CntLen c <= 63 ->
  0 <= SrvID c ->
  NewUidGenerator c prevID = inr g ->
  (forall (ts : list Z) (t : Z),
      candidateEpoch (cfg g) t <= epoch (snd (run g ts)) ->
      cnt (snd (run g ts)) + 1 > 2 ^ CntLen c - 1 ->
      epoch (snd (NextID (snd (run g ts)) t))
      = u64 (epoch (snd (run g ts)) + epochIota (cfg g)) /\
      epochField g (fst (NextID (snd (run g ts)) t))
      = epochField g (u64 (epoch (snd (run g ts)) + epochIota (cfg g))) /\
      Count g (fst (NextID (snd (run g ts)) t)) = 0)
  /\
  (forall (ts ts' : list Z),
      (forall id id',
          In id (fst (run (snd (run g ts)) ts')) ->
          In id' (fst (run (snd (run g ts)) ts')) ->
          epochField g id = epochField g id') ->
      Z.of_nat (List.length (fst (run (snd (run g ts)) ts'))) <= 2 ^ CntLen c).
Proof.
  intros Hwf Hv H63 Hnn Hnew.
  destruct (NewUidGenerator_ok c prevID g Hwf Hv H63 Hnn Hnew)
    as (Hok & _ & Hcl).
  split.
  - intros ts t Hcand Hcnt.
    pose proof (run_ok ts g Hok) as Hb. pose proof (run_cfg ts g) as Hcfg.
    set (before := snd (run g ts)) in *.
    pose proof (NextID_ok before t Hb) as Ha.
    pose proof (NextID_cfg before t) as Hcfg'.
    assert (Hx : exhausted before t = true).
    { destruct (NextID_cases before t Hb)
        as [(Hx & _) | [(_ & _ & H2) | (_ & H1)]]; [exact Hx | |].
      - rewrite Hcfg, (lay_maxcnt _ (ok_layout g Hok)), Hcl in H2. lia.
      - rewrite Hcfg in H1. lia. }
    assert (He : epoch (snd (NextID before t))
                 = u64 (epoch before + epochIota (cfg g))).
    { rewrite (NextID_exhausted before t Hx), Hcfg. reflexivity. }
    assert (Hc : cnt (snd (NextID before t)) = 0)
      by (rewrite (NextID_exhausted before t Hx); reflexivity).
    assert (Hgg : cfg (snd (NextID before t)) = cfg g) by congruence.
    split; [exact He |]. split.
    + rewrite NextID_id, <- (epochField_cfg _ g _ Hgg).
      rewrite (epochField_currentID _ Ha), Hgg, He.
      unfold epochField. rewrite shr64_div; [reflexivity |].
      apply (gen_ok_iota g Hok).
    + rewrite NextID_id, <- (Count_cfg _ g _ Hgg).
      rewrite (Count_currentID _ Ha). exact Hc.
  - intros ts ts' Hall.
    pose proof (run_ok ts g Hok) as Hb. pose proof (run_cfg ts g) as Hcfg.
    rewrite <- Hcl, <- Hcfg.
    apply same_epoch_bound; [exact Hb |].
    intros id id' Hin Hin'.
    rewrite !(epochField_cfg _ g _ Hcfg). apply Hall; assumption.
Qed.

Lemma NextID_exhaustion_rolls_epoch_witness :
  let g := genOf (rawConfig 41 10 12 20 false 1288834974 1) 4095 in
  epoch (snd (NextID g 0)) = 4194304 /\
  epochField g (fst (NextID g 0)) = 1 /\
  Count g (fst (NextID g 0)) = 0.
Proof.
  intros g.
  destruct (NextID_exhaustion_rolls_epoch
              (rawConfig 41 10 12 20 false 1288834974 1) 4095 g) as [Hstep _].
  - unfold wf_config, is_u8, is_i64; cbn; lia.
  - unfold valid_widths; cbn; lia.
  - cbn; lia.
  - cbn; lia.
  - vm_compute; reflexivity.
  - apply (Hstep [] 0).
    + vm_compute; discriminate.
    + vm_compute; reflexivity.
Defined.

(* ================================================================= *)
(** ** Decoding: what [FromBase32] accepts *)

Section Decode.

Lemma padLoop_zero (k : nat) : padLoop k 0 = 0.
Proof. induction k as [| k IH]; [reflexivity | exact IH]. Qed.

Lemma letters_without_question_mark (i : nat) :
  String.get i letters <> Some "?"%char.
Proof.
  do 32 (destruct i as [| i]; [cbn; discriminate |]).
  cbn. discriminate.
Qed.

End Decode.

(** C2 (defect in the code).  [init] marks only the first [len(letters)]
    = 32 entries of the 256-entry table as invalid; every other byte that
    is not a letter keeps Go's zero value and decodes as the letter [a].
    The byte [?] (63) is such a byte: for every generator, decoding the
    string of two question marks returns ID 0 and no error. *)
Theorem FromBase32_accepts_question_marks (gen : UidGenerator) :
  (forall i : nat, String.get i letters <> Some "?"%char) /\
  decodeLetters (byteOf "?"%char) = 0 /\
  FromBase32 gen "??" = (0, None).
Proof.
  split; [exact letters_without_question_mark |].
  split; [vm_compute; reflexivity |].
  unfold FromBase32.
  change (decodeLoop _ "??" 0 0) with (Some (2, 0)).
  cbv beta iota. rewrite padLoop_zero. reflexivity.
Qed.

(* ================================================================= *)
(** ** Encoding: the truncation loop *)

Section Strip.

Lemma land_letterMask (id : Z) : Z.land id letterMask = id mod 32.
Proof.
  change letterMask with (2 ^ 5 - 1). rewrite land_low_mask by lia.
  reflexivity.
Qed.

Lemma pow32_pos (k : nat) : 0 < 32 ^ Z.of_nat k.
Proof. apply Z.pow_pos_nonneg; lia. Qed.

Lemma pow32_succ (k : nat) : 32 ^ Z.of_nat (S k) = 32 ^ Z.of_nat k * 32.
Proof. rewrite Nat2Z.inj_succ, Z.pow_succ_r by lia. ring. Qed.

(** On 0 the loop condition [id&letterMask == 0] holds forever. *)
Lemma stripZeros_zero (fuel : nat) : forall i, stripZeros fuel 0 i = None.
Proof.
  induction fuel as [| fuel IH]; intros i; [reflexivity |].
  cbn [stripZeros]. change (Z.land 0 letterMask =? 0) with true.
  cbv iota. change (shr64 0 letterLen) with 0. apply IH.
Qed.

(** A value with exactly [k] trailing zero letters leaves the loop after
    [k] rounds. *)
Lemma stripZeros_spec (k : nat) :
  forall (fuel : nat) (id' i : Z),
    (k <= fuel)%nat -> id' mod 32 <> 0 ->
    - 2 ^ 7 + Z.of_nat k <= i < 2 ^ 7 ->
    stripZeros fuel (id' * 32 ^ Z.of_nat k) i = Some (id', i - Z.of_nat k).
Proof.
  induction k as [| k IH]; intros fuel id' i Hk Hnz Hi.
  - change (32 ^ Z.of_nat 0) with 1. rewrite Z.mul_1_r, Z.sub_0_r.
    assert (Hc : (Z.land id' letterMask =? 0) = false)
      by (rewrite land_letterMask; apply Z.eqb_neq; exact Hnz).
    destruct fuel; cbn [stripZeros]; rewrite Hc; reflexivity.
  - destruct fuel as [| fuel]; [lia |].
    cbn [stripZeros]. rewrite land_letterMask, pow32_succ, Z.mul_assoc.
    rewrite Z_mod_mult. cbn [Z.eqb].
    unfold shr64, letterLen. rewrite Z.shiftr_div_pow2 by lia.
    change (2 ^ 5) with 32. rewrite Z.div_mul by lia.
    rewrite i8_small by lia.
    rewrite IH by lia. f_equal. f_equal. lia.
Qed.

(** Every positive value below [32^n] is an odd-lettered value times a
    power of 32 with fewer than [n] factors. *)
Lemma trailing_letters (n : nat) :
  forall id, 0 < id < 32 ^ Z.of_nat n ->
    exists (k : nat) (id' : Z),
      (k < n)%nat /\ id = id' * 32 ^ Z.of_nat k /\ id' mod 32 <> 0 /\ 0 < id'.
Proof.
  induction n as [| n IH]; intros id Hid.
  - change (32 ^ Z.of_nat 0) with 1 in Hid. lia.
  - destruct (Z.eq_dec (id mod 32) 0) as [Hz | Hnz].
    + rewrite pow32_succ in Hid.
      pose proof (Z.div_mod id 32 ltac:(lia)) as Hdm. rewrite Hz in Hdm.
      destruct (IH (id / 32)) as (k & id' & Hk & He & Hm & Hp); [nia |].
      exists (S k), id'. repeat split; try assumption; try lia.
      all: rewrite pow32_succ; lia.
    + exists 0%nat, id. repeat split; try assumption; lia.
Qed.

End Strip.

(** C4 (defect in the code).  With the truncation flag set, [ToBase32]
    never returns on the ID 0: whatever the number of rounds allowed, the
    loop that strips zero letters is still running.  So
    [FromBase32(ToBase32(0))] yields nothing, although 0 lies in
    [[0, 2^totalBits)]. *)
Theorem ToBase32_zero_never_returns (gen : UidGenerator) (fuel : nat) :
  TruncStr (cfg gen) = true ->
  ToBase32 fuel gen 0 = StillLooping.
Proof.
  intros Htr. unfold ToBase32. rewrite Htr, stripZeros_zero. reflexivity.
Qed.

Lemma ToBase32_zero_never_returns_witness :
  ToBase32 1000 (genOf (rawConfig 41 10 12 20 true 1288834974 1) 0) 0
  = StillLooping.
Proof.
  apply ToBase32_zero_never_returns. reflexivity.
Defined.

(* ================================================================= *)
(** ** Decoding what [ToBase32] wrote *)

Section RoundTrip.

(** The second loop of [init] stores the index of every letter. *)
Lemma letters_decode (v : Z) :
  0 <= v < 32 -> decodeLetters (byteOf (letterAt v)) = v.
Proof.
  intros Hv.
  assert (Hall : forallb (fun x => decodeLetters (byteOf (letterAt x)) =? x)
                         (map Z.of_nat (seq 0 32)) = true)
    by (vm_compute; reflexivity).
  rewrite forallb_forall in Hall. apply Z.eqb_eq, Hall.
  apply in_map_iff. exists (Z.to_nat v). split; [lia |].
  apply in_seq. lia.
Qed.

Lemma fillLetters_length (n : nat) :
  forall id acc,
    String.length (fillLetters n id acc) = (n + String.length acc)%nat.
Proof.
  induction n as [| n IH]; intros id acc; [reflexivity |].
  cbn [fillLetters]. rewrite IH. cbn [String.length]. lia.
Qed.

Lemma u64_step (x m : Z) : u64 (u64 (u64 x * 32) + m) = u64 (x * 32 + m).
Proof.
  unfold u64. rewrite Zplus_mod_idemp_l.
  rewrite (Zplus_mod (x mod 2 ^ 64 * 32)), Zmult_mod_idemp_l, <- Zplus_mod.
  reflexivity.
Qed.

(** The first loop of [FromBase32] run over the letters that the fill
    loop of [ToBase32] put in front of [acc]. *)
Lemma decode_fill (n : nat) :
  forall (id : Z) (acc : string) (i a : Z),
    is_u64 a ->
    decodeLoop (n + String.length acc) (fillLetters n id acc) i a
    = decodeLoop (String.length acc) acc (i + Z.of_nat n)
                 (u64 (a * 32 ^ Z.of_nat n + id mod 32 ^ Z.of_nat n)).
Proof.
  induction n as [| n IH]; intros id acc i a Ha.
  - cbn [fillLetters Nat.add]. change (32 ^ Z.of_nat 0) with 1.
    rewrite Z.mod_1_r, Z.mul_1_r, !Z.add_0_r, u64_small by exact Ha.
    reflexivity.
  - cbn [fillLetters].
    replace (S n + String.length acc)%nat
      with (n + String.length
                  (String (letterAt (Z.land id letterMask)) acc))%nat
      by (cbn [String.length]; lia).
    rewrite IH by exact Ha.
    cbn [String.length decodeLoop]. rewrite land_letterMask.
    pose proof (Z.mod_pos_bound id 32 ltac:(lia)) as Hm.
    rewrite letters_decode by exact Hm.
    destruct (id mod 32 =? 255) eqn:E; [lia |].
    f_equal; [lia |].
    unfold letterLen. rewrite shl64_mul, shr64_div by lia.
    change (2 ^ 5) with 32. rewrite u64_step. f_equal.
    rewrite pow32_succ, (Z.mul_comm (32 ^ Z.of_nat n) 32).
    rewrite (Z.rem_mul_r id 32 (32 ^ Z.of_nat n))
      by (pose proof (pow32_pos n); lia).
    ring.
Qed.

Lemma padLoop_mul (k : nat) :
  forall x, padLoop k (u64 x) = u64 (x * 32 ^ Z.of_nat k).
Proof.
  induction k as [| k IH]; intros x.
  - change (32 ^ Z.of_nat 0) with 1. rewrite Z.mul_1_r. reflexivity.
  - cbn [padLoop]. unfold letterLen. rewrite shl64_mul by lia.
    change (2 ^ 5) with 32. rewrite IH, pow32_succ.
    unfold u64. rewrite <- Z.mul_assoc, Zmult_mod_idemp_l. f_equal. ring.
Qed.

(** [FromBase32] on a string of [n] letters written by the fill loop:
    the low [n] letters of [id], padded up to [strLen]. *)
Lemma FromBase32_fill (g : UidGenerator) (n : nat) (id : Z) :
  (n <= 127)%nat ->
  FromBase32 g (fillLetters n id EmptyString)
  = (u64 (id mod 32 ^ Z.of_nat n
          * 32 ^ Z.of_nat (Z.to_nat (strLen (cfg g) - Z.of_nat n))), None).
Proof.
  intros Hn. unfold FromBase32.
  rewrite fillLetters_length. cbn [String.length].
  rewrite Nat.add_0_r, i8_small, Nat2Z.id by lia.
  pose proof (decode_fill n id EmptyString 0 0 ltac:(unfold is_u64; lia))
    as Hd.
  cbn [String.length] in Hd. rewrite Nat.add_0_r in Hd. rewrite Hd.
  cbn [decodeLoop]. rewrite Z.mul_0_l, !Z.add_0_l.
  rewrite padLoop_mul. reflexivity.
Qed.

Lemma update_strLen (c c' : UidGeneratorConfig) :
  update c = inr c' -> 0 <= strLen c' <= 13.
Proof.
  unfold update. destruct (idLen c >? 64) eqn:Hgt; [discriminate |].
  intros H. inversion H; subst c'; clear H. cbn [strLen].
  assert (Hid : 0 <= idLen c <= 64).
  { split; [| lia]. unfold idLen, u8. apply Z.mod_pos_bound. lia. }
  unfold strLenOf, letterLen.
  assert (0 <= (idLen c + 5 - 1) / 5 <= 13).
  { split; [apply Z.div_pos; lia |].
    apply Z.lt_succ_r, Z.div_lt_upper_bound; lia. }
  rewrite i8_small; lia.
Qed.

(** The untruncated path of [ToBase32]: always [strLen] letters. *)
Lemma encodeFrom_full (sl id : Z) :
  0 <= sl <= 13 ->
  encodeFrom id (i8 (sl - 1))
  = Returns (fillLetters (Z.to_nat sl) id EmptyString).
Proof.
  intros Hs. unfold encodeFrom.
  rewrite (i8_small (sl - 1)) by lia.
  replace (sl - 1 + 1) with sl by lia. rewrite i8_small by lia.
  destruct (sl <? 0) eqn:E; [lia | reflexivity].
Qed.

(** The truncated path on a non-zero ID with [k] trailing zero letters. *)
Lemma ToBase32_truncated (fuel : nat) (g : UidGenerator) (k : nat) (id' : Z) :
  TruncStr (cfg g) = true ->
  0 <= strLen (cfg g) <= 13 ->
  (k <= fuel)%nat -> (k <= 13)%nat -> id' mod 32 <> 0 ->
  ToBase32 fuel g (id' * 32 ^ Z.of_nat k)
  = if strLen (cfg g) - Z.of_nat k <? 0 then Panics
    else Returns (fillLetters (Z.to_nat (strLen (cfg g) - Z.of_nat k))
                              id' EmptyString).
Proof.
  intros Htr Hs Hk Hk13 Hnz. unfold ToBase32. rewrite Htr.
  rewrite (i8_small (strLen (cfg g) - 1)) by lia.
  rewrite stripZeros_spec by (try assumption; lia).
  unfold encodeFrom.
  replace (strLen (cfg g) - 1 - Z.of_nat k + 1)
    with (strLen (cfg g) - Z.of_nat k) by lia.
  rewrite i8_small by lia. reflexivity.
Qed.

End RoundTrip.

Section Codec.

Variable g : UidGenerator.
Hypothesis Hlen : 0 <= strLen (cfg g) <= 13.

Lemma pow2_pow32 (m : Z) : 0 <= m -> 2 ^ (5 * m) = 32 ^ m.
Proof. intros. rewrite Z.pow_mul_r by lia. reflexivity. Qed.

Lemma FromBase32_full (id : Z) :
  FromBase32 g (fillLetters (Z.to_nat (strLen (cfg g))) id EmptyString)
  = (u64 (id mod 32 ^ strLen (cfg g)), None).
Proof.
  rewrite FromBase32_fill by lia.
  rewrite Z2Nat.id, Z.sub_diag by lia.
  change (32 ^ Z.of_nat (Z.to_nat 0)) with 1. rewrite Z.mul_1_r.
  reflexivity.
Qed.

Lemma ToBase32_untruncated (fuel : nat) (id : Z) :
  TruncStr (cfg g) = false ->
  ToBase32 fuel g id
  = Returns (fillLetters (Z.to_nat (strLen (cfg g))) id EmptyString).
Proof.
  intros Htr. unfold ToBase32. rewrite Htr. apply encodeFrom_full, Hlen.
Qed.

(** The truncated encoding of an ID that is not a multiple of
    [32^(strLen+1)]: it is returned, it is no longer than [strLen], and
    it decodes to the low [strLen] letters of the ID. *)
Lemma ToBase32_truncated_core (fuel : nat) (id : Z) :
  TruncStr (cfg g) = true ->
  is_u64 id ->
  id mod 32 ^ (strLen (cfg g) + 1) <> 0 ->
  (enoughFuel <= fuel)%nat ->
  exists s,
    ToBase32 fuel g id = Returns s /\
    Z.of_nat (String.length s) <= strLen (cfg g) /\
    FromBase32 g s = (u64 (id mod 32 ^ strLen (cfg g)), None).
Proof.
  intros Htr Hid Hnm Hfuel. unfold is_u64, enoughFuel in *.
  assert (Hpos : 0 < id).
  { destruct (Z.eq_dec id 0) as [-> | N]; [| lia].
    rewrite Z.mod_0_l in Hnm by (apply Z.pow_nonzero; lia). lia. }
  destruct (trailing_letters 13 id) as (k & id' & Hk & He & Hm & Hp).
  { change (32 ^ Z.of_nat 13) with (2 ^ 65).
    pose proof (pow2_lt 64 65). lia. }
  assert (Hks : Z.of_nat k <= strLen (cfg g)).
  { destruct (Z.le_gt_cases (Z.of_nat k) (strLen (cfg g))) as [H | H];
      [exact H | exfalso; apply Hnm].
    rewrite He.
    replace (Z.of_nat k)
      with (Z.of_nat k - (strLen (cfg g) + 1) + (strLen (cfg g) + 1)) by lia.
    rewrite Z.pow_add_r, Z.mul_assoc by lia. apply Z_mod_mult. }
  exists (fillLetters (Z.to_nat (strLen (cfg g) - Z.of_nat k)) id' EmptyString).
  split; [| split].
  - rewrite He, ToBase32_truncated by (try assumption; lia).
    destruct (_ <? 0) eqn:E; [lia | reflexivity].
  - rewrite fillLetters_length. cbn [String.length]. lia.
  - rewrite FromBase32_fill by lia.
    rewrite !Z2Nat.id by lia.
    replace (strLen (cfg g) - (strLen (cfg g) - Z.of_nat k))
      with (Z.of_nat k) by lia.
    rewrite <- Zmult_mod_distr_r, <- He.
    rewrite <- Z.pow_add_r by lia.
    replace (strLen (cfg g) - Z.of_nat k + Z.of_nat k)
      with (strLen (cfg g)) by lia.
    reflexivity.
Qed.

End Codec.

(** C7, counterexample.  Widths 20 + 5 + 5 give [strLen] = 6.  On the
    ID [2^35] the truncation loop strips seven zero letters, leaves
    [i] = -2, and [make([]byte, i+1)] is called with length -1: the call
    panics, so no string of length at most [strLen] is produced. *)
Lemma ToBase32_panics_beyond_layout :
  let c := rawConfig 20 5 5 20 true 0 1 in
  let g := genOf c 0 in
  update c = inr (cfg g) /\ TruncStr (cfg g) = true /\ strLen (cfg g) = 6 /\
  is_u64 (2 ^ 35) /\
  ToBase32 enoughFuel g (2 ^ 35) = Panics /\
  forall (fuel : nat) (s : string), ToBase32 fuel g (2 ^ 35) <> Returns s.
Proof.
  cbv zeta.
  split; [vm_compute; reflexivity |]. split; [reflexivity |].
  split; [reflexivity |].
  split; [unfold is_u64; split; [| apply pow2_lt]; lia |].
  split; [vm_compute; reflexivity |].
  intros fuel s.
  destruct (le_lt_dec 7 fuel) as [Hge | Hlt].
  - replace (2 ^ 35) with (1 * 32 ^ Z.of_nat 7) by reflexivity.
    rewrite ToBase32_truncated; try lia; try reflexivity;
      [| vm_compute; split; discriminate | vm_compute; discriminate].
    change (strLen (cfg (genOf (rawConfig 20 5 5 20 true 0 1) 0))) with 6.
    discriminate.
  - do 7 (destruct fuel as [| fuel]; [vm_compute; discriminate |]). lia.
Qed.

(** C7, amended.  For every compiled configuration with the truncation
    flag set and every 64-bit ID that is not a multiple of
    [2^(5 * (strLen + 1))] (so not 0, and with at most [strLen] trailing
    zero letters), [ToBase32] returns a string no longer than [strLen];
    the untruncated encoding has exactly [strLen] letters, and
    [FromBase32] returns the same on both. *)
Theorem ToBase32_truncated_decodes_like_full
        (c c' : UidGeneratorConfig) (g : UidGenerator) (id : UniqueID)
        (fuel : nat) :
  update c = inr c' ->
  cfg g = c' ->
  TruncStr c' = true ->
  is_u64 id ->
  id mod 2 ^ (5 * (strLen c' + 1)) <> 0 ->
  (enoughFuel <= fuel)%nat ->
  exists s full,
    ToBase32 fuel g id = Returns s /\
    Z.of_nat (String.length s) <= strLen c' /\
    ToBase32 fuel (withTruncStr false g) id = Returns full /\
    Z.of_nat (String.length full) = strLen c' /\
    FromBase32 g s = FromBase32 g full.
Proof.
  intros Hup Hcfg Htr Hid Hnm Hfuel. subst c'.
  pose proof (update_strLen _ _ Hup) as Hlen.
  rewrite pow2_pow32 in Hnm by lia.
  destruct (ToBase32_truncated_core g Hlen fuel id Htr Hid Hnm Hfuel)
    as (s & Hs & Hl & Hd).
  exists s, (fillLetters (Z.to_nat (strLen (cfg g))) id EmptyString).
  split; [exact Hs |]. split; [exact Hl |]. split; [| split].
  - apply (ToBase32_untruncated (withTruncStr false g) Hlen); reflexivity.
  - rewrite fillLetters_length. cbn [String.length]. lia.
  - rewrite Hd. symmetry. apply FromBase32_full, Hlen.
Qed.

Lemma ToBase32_truncated_decodes_like_full_witness :
  let c := rawConfig 41 10 12 20 true 1288834974 1 in
  let g := genOf c 0 in
  exists s full,
    ToBase32 enoughFuel g 404543206235635712 = Returns s /\
    Z.of_nat (String.length s) <= strLen (cfg g) /\
    ToBase32 enoughFuel (withTruncStr false g) 404543206235635712
    = Returns full /\
    Z.of_nat (String.length full) = strLen (cfg g) /\
    FromBase32 g s = FromBase32 g full.
Proof.
  cbv zeta.
  apply (ToBase32_truncated_decodes_like_full
           (rawConfig 41 10 12 20 true 1288834974 1)).
  - vm_compute; reflexivity.
  - reflexivity.
  - reflexivity.
  - unfold is_u64; vm_compute; split; [discriminate | reflexivity].
  - vm_compute; discriminate.
  - unfold enoughFuel; lia.
Defined.

(** X14.  The round trip where [ToBase32] returns: every ID within
    [5 * strLen] bits comes back from [FromBase32], untruncated always
    and truncated unless the ID is 0. *)
Lemma FromBase32_ToBase32_roundtrip
      (c c' : UidGeneratorConfig) (g : UidGenerator) (id : UniqueID)
      (fuel : nat) :
  update c = inr c' ->
  cfg g = c' ->
  is_u64 id ->
  id < 2 ^ (5 * strLen c') ->
  TruncStr c' = false \/ id <> 0 ->
  (enoughFuel <= fuel)%nat ->
  exists s, ToBase32 fuel g id = Returns s /\ FromBase32 g s = (id, None).
Proof.
  intros Hup Hcfg Hid Hrep Hcase Hfuel. subst c'.
  pose proof (update_strLen _ _ Hup) as Hlen.
  rewrite pow2_pow32 in Hrep by lia. unfold is_u64 in Hid.
  assert (Hval : u64 (id mod 32 ^ strLen (cfg g)) = id)
    by (rewrite Z.mod_small by lia; apply u64_small; lia).
  destruct (TruncStr (cfg g)) eqn:Htr.
  - destruct Hcase as [Hf | Hnz]; [discriminate |].
    assert (Hnm : id mod 32 ^ (strLen (cfg g) + 1) <> 0).
    { pose proof (Z.pow_pos_nonneg 32 (strLen (cfg g))).
      rewrite Z.pow_add_r by lia. change (32 ^ 1) with 32.
      rewrite Z.mod_small; nia. }
    destruct (ToBase32_truncated_core g Hlen fuel id Htr Hid Hnm Hfuel)
      as (s & Hs & _ & Hd).
    exists s. split; [exact Hs |]. rewrite Hd, Hval. reflexivity.
  - eexists. split; [apply (ToBase32_untruncated g Hlen), Htr |].
    rewrite (FromBase32_full g Hlen), Hval. reflexivity.
Qed.

(* ================================================================= *)
(** ** Time conversions *)

Section Time.

Lemma update_interval (c c' : UidGeneratorConfig) :
  wf_config c -> update c = inr c' ->
  0 <= IntervalLen c' /\ EpochStart c' = EpochStart c.
Proof.
  intros (_ & _ & _ & Hi & _) Hup. unfold is_u8 in Hi.
  unfold update in Hup. destruct (idLen c >? 64); [discriminate |].
  inversion Hup; subst c'; clear Hup. cbn [IntervalLen EpochStart].
  split; [| reflexivity].
  destruct (IntervalLen c =? 0); [| lia].
  unfold u8. apply Z.mod_pos_bound. lia.
Qed.

Lemma NewUidGenerator_interval (c : UidGeneratorConfig) (prevID : UniqueID)
      (g : UidGenerator) :
  wf_config c -> NewUidGenerator c prevID = inr g ->
  0 <= IntervalLen (cfg g).
Proof.
  intros Hwf Hnew. unfold NewUidGenerator in Hnew.
  destruct (update c) as [e | c'] eqn:Hup; [discriminate |].
  destruct (_ >? _); [discriminate |].
  inversion Hnew; subst g; clear Hnew. cbn [cfg].
  apply (update_interval c c' Hwf Hup).
Qed.

(** [FromUnix] on a time at or after the start whose tick count fits
    above the epoch shift: no operation wraps. *)
Lemma FromUnix_exact (g : UidGenerator) (t : Z) :
  layout (cfg g) ->
  0 <= IntervalLen (cfg g) ->
  0 <= srvID g < 2 ^ epochShift (cfg g) ->
  0 <= t - EpochStart (cfg g) ->
  (t - EpochStart (cfg g)) * 1000000000 < 2 ^ 63 ->
  (t - EpochStart (cfg g)) * 1000000000 / 2 ^ IntervalLen (cfg g)
  * 2 ^ epochShift (cfg g) < 2 ^ 64 ->
  FromUnix g t
  = (t - EpochStart (cfg g)) * 1000000000 / 2 ^ IntervalLen (cfg g)
    * 2 ^ epochShift (cfg g) + srvID g.
Proof.
  intros L Hil Hsrv Hd Hn Hfit.
  assert (Hsh : 0 <= epochShift (cfg g) <= 64).
  { rewrite (lay_shift _ L). pose proof (lay_srv _ L).
    pose proof (lay_cnt _ L). pose proof (lay_epoch _ L).
    pose proof (lay_total _ L). lia. }
  unfold FromUnix.
  set (d := t - EpochStart (cfg g)) in *.
  assert (Hd63 : d < 2 ^ 63) by lia.
  rewrite (i64_small d), (u64_small d), (u64_small (d * 1000000000)) by lia.
  rewrite shr64_div, shl64_mul by lia.
  set (ticks := d * 1000000000 / 2 ^ IntervalLen (cfg g)) in *.
  assert (Ht : 0 <= ticks)
    by (apply Z.div_pos; [lia | apply pow2_pos; lia]).
  pose proof (pow2_pos (epochShift (cfg g)) ltac:(lia)) as Hp.
  rewrite (u64_small (ticks * 2 ^ epochShift (cfg g))) by nia.
  apply u64_small.
  pose proof (multiple_top (ticks * 2 ^ epochShift (cfg g))
                           (epochShift (cfg g)) Hsh
                           ltac:(exists ticks; reflexivity) Hfit).
  nia.
Qed.

End Time.

(** C8, counterexample.  With the Snowflake configuration the time 2048
    seconds before [EpochStart] is aligned ([-2048 * 10^9] is a multiple
    of [2^20]), but the difference is converted to [uint64] and
    [Unix(FromUnix(t))] is 5900518944 instead of 1288832926. *)
Lemma Unix_FromUnix_before_start :
  let c := SnowflakeConfig in
  let g := genOf c 0 in
  let t := 1288834974 - 2048 in
  NewUidGenerator c 0 = inr g /\
  ((t - EpochStart (cfg g)) * 1000000000) mod 2 ^ IntervalLen (cfg g) = 0 /\
  Unix g (FromUnix g t) = 5900518944 /\
  Unix g (FromUnix g t) <> t.
Proof.
  cbv zeta. split; [vm_compute; reflexivity |].
  split; [vm_compute; reflexivity |].
  split; [vm_compute; reflexivity | vm_compute; discriminate].
Qed.

(** C8, amended.  For a generator built from widths summing to at most
    64 and a non-negative server identity, and every time [t] at or after
    [EpochStart] that is aligned to the interval, whose distance from the
    start is below [2^63] nanoseconds and whose tick count shifted by
    [epochShift] stays below [2^64]: [Unix(FromUnix(t))] is [t]. *)
Theorem Unix_FromUnix_aligned
        (c : UidGeneratorConfig) (prevID : UniqueID) (g : UidGenerator)
        (t : Z) :
  wf_config c ->
  valid_widths c ->
  0 <= SrvID c ->
  NewUidGenerator c prevID = inr g ->
  is_i64 t ->
  EpochStart c <= t ->
  (t - EpochStart c) * 1000000000 < 2 ^ 63 ->
  ((t - EpochStart c) * 1000000000) mod 2 ^ IntervalLen (cfg g) = 0 ->
  (t - EpochStart c) * 1000000000 / 2 ^ IntervalLen (cfg g)
  * 2 ^ epochShift (cfg g) < 2 ^ 64 ->
  Unix g (FromUnix g t) = t.
Proof.
  intros Hwf Hv Hnn Hnew Ht Hge Hn Hal Hfit.
  destruct (NewUidGenerator_inv c prevID g Hwf Hv Hnn Hnew)
    as (L & _ & Hes & Hrange & Hsrv & _ & _).
  pose proof (NewUidGenerator_interval c prevID g Hwf Hnew) as Hil.
  pose proof (lay_srv _ L) as HS. pose proof (lay_cnt _ L) as HC.
  pose proof (lay_shift _ L) as Hsh.
  assert (Hlow : 0 <= srvID g < 2 ^ epochShift (cfg g)).
  { pose proof (field_sum_bound (SrvID (cfg g)) 0 _ _ HS HC Hrange
                                ltac:(pose proof (pow2_pos _ HC); lia)).
    rewrite Hsh, Hsrv. lia. }
  rewrite <- Hes in *.
  rewrite (FromUnix_exact g t L Hil Hlow) by (try assumption; lia).
  unfold Unix.
  set (d := t - EpochStart (cfg g)) in *.
  set (ticks := d * 1000000000 / 2 ^ IntervalLen (cfg g)) in *.
  pose proof (pow2_pos (epochShift (cfg g)) ltac:(lia)) as Hp.
  pose proof (pow2_pos _ Hil) as Hpi.
  rewrite shr64_div by lia.
  rewrite Z.div_add_l, (Z.div_small (srvID g)), Z.add_0_r by lia.
  assert (Hback : ticks * 2 ^ IntervalLen (cfg g) = d * 1000000000).
  { pose proof (Z.div_mod (d * 1000000000) (2 ^ IntervalLen (cfg g))
                          ltac:(lia)) as Hdm.
    rewrite Hal in Hdm. subst ticks. lia. }
  rewrite shl64_mul, Hback by lia.
  rewrite (u64_small (d * 1000000000)), (i64_small (d * 1000000000)) by lia.
  rewrite Z.quot_mul, Z.rem_mul by lia.
  change (0 >=? 500000000) with false. cbv iota.
  replace (d + EpochStart (cfg g)) with t by (subst d; lia).
  apply i64_small, Ht.
Qed.

Lemma Unix_FromUnix_aligned_witness :
  Unix (genOf SnowflakeConfig 0) (FromUnix (genOf SnowflakeConfig 0)
                                           (1288834974 + 2048))
  = 1288834974 + 2048.
Proof.
  apply (Unix_FromUnix_aligned SnowflakeConfig 0).
  - unfold wf_config, is_u8, is_i64; cbn; lia.
  - unfold valid_widths; cbn; lia.
  - cbn; lia.
  - vm_compute; reflexivity.
  - unfold is_i64; lia.
  - cbn; lia.
  - cbn; lia.
  - vm_compute; reflexivity.
  - vm_compute; reflexivity.
Defined.

(* ================================================================= *)
(** ** More on [update] and [NewUidGenerator] *)

Section Construction.

Lemma idLen_mod (c : UidGeneratorConfig) :
  idLen c = (EpochLen c + SrvLen c + CntLen c) mod 2 ^ 8.
Proof.
  unfold idLen, u8. rewrite Zplus_mod_idemp_l. reflexivity.
Qed.

Lemma update_inr_layout (c c' : UidGeneratorConfig) :
  wf_config c -> valid_widths c -> update c = inr c' ->
  layout c' /\ EpochLen c' = EpochLen c /\ SrvLen c' = SrvLen c /\
  CntLen c' = CntLen c /\ SrvID c' = SrvID c.
Proof.
  intros Hwf Hv Hup.
  destruct (update_layout c Hwf Hv)
    as (c2 & Hup2 & L & He & Hs & Hc & Hid & _).
  rewrite Hup in Hup2. inversion Hup2; subst c2.
  split; [exact L |]. repeat split; assumption.
Qed.

Lemma small_div (x m : Z) : 0 <= x < 2 ^ m -> x / 2 ^ m = 0.
Proof. intros; apply Z.div_small; assumption. Qed.

End Construction.

(** X1.  On widths summing to at most 64 the three masks derived by
    [update] are pairwise disjoint and together cover exactly the low
    [EpochLen + SrvLen + CntLen] bits. *)
Theorem update_masks_partition (c c' : UidGeneratorConfig) :
  wf_config c ->
  valid_widths c ->
  update c = inr c' ->
  Z.land (epochMask c') (srvMask c') = 0 /\
  Z.land (epochMask c') (cntMask c') = 0 /\
  Z.land (srvMask c') (cntMask c') = 0 /\
  epochMask c' + srvMask c' + cntMask c'
  = 2 ^ (EpochLen c + SrvLen c + CntLen c) - 1.
Proof.
  intros Hwf Hv Hup.
  destruct (update_inr_layout c c' Hwf Hv Hup) as (L & He & Hs & Hc & _).
  destruct L as [HE HS HC HT Hsh Hem _ _ Hsm Hmc Hcm].
  rewrite <- He, <- Hs, <- Hc.
  pose proof (pow2_pos _ HE) as PE. pose proof (pow2_pos _ HS) as PS.
  pose proof (pow2_pos _ HC) as PC.
  assert (Hsrv : 0 <= srvMask c' < 2 ^ epochShift c').
  { rewrite Hsm, Hsh, Z.pow_add_r by lia. nia. }
  assert (Hcnt : 0 <= cntMask c' < 2 ^ CntLen c') by lia.
  assert (Hcnt' : 0 <= cntMask c' < 2 ^ epochShift c').
  { rewrite Hsh, Z.pow_add_r by lia. nia. }
  repeat split.
  - rewrite Z.land_comm, Hem, land_field_arith by lia.
    rewrite small_div by exact Hsrv. rewrite Z.mod_0_l; lia.
  - rewrite Z.land_comm, Hem, land_field_arith by lia.
    rewrite small_div by exact Hcnt'. rewrite Z.mod_0_l; lia.
  - rewrite Z.land_comm, Hsm, land_field_arith by lia.
    rewrite small_div by exact Hcnt. rewrite Z.mod_0_l; lia.
  - rewrite Hem, Hsm, Hcm, Hmc, Hsh, !Z.pow_add_r by lia. ring.
Qed.

Lemma update_masks_partition_witness :
  let c' := cfg (genOf SnowflakeConfig 0) in
  Z.land (epochMask c') (srvMask c') = 0 /\
  Z.land (epochMask c') (cntMask c') = 0 /\
  Z.land (srvMask c') (cntMask c') = 0 /\
  epochMask c' + srvMask c' + cntMask c' = 2 ^ (41 + 10 + 12) - 1.
Proof.
  apply (update_masks_partition SnowflakeConfig).
  - unfold wf_config, is_u8, is_i64; cbn; lia.
  - unfold valid_widths; cbn; lia.
  - vm_compute; reflexivity.
Defined.

(** X2.  The length check sees the sum of the widths modulo 256:
    [NewUidGenerator] fails with [ErrTooLongID] exactly when
    [(EpochLen + SrvLen + CntLen) mod 256] exceeds 64. *)
Theorem NewUidGenerator_too_long_iff
        (c : UidGeneratorConfig) (prevID : UniqueID) :
  NewUidGenerator c prevID = inl ErrTooLongID <->
  64 < (EpochLen c + SrvLen c + CntLen c) mod 256.
Proof.
  change 256 with (2 ^ 8). rewrite <- idLen_mod.
  unfold NewUidGenerator, update.
  destruct (idLen c >? 64) eqn:Hgt.
  - split; [lia | reflexivity].
  - cbn [SrvID maxSrv]. split; [| lia].
    destruct (SrvID c >? _); discriminate.
Qed.

(** X3.  On widths summing to at most 64, construction succeeds exactly
    when [SrvID <= 2^SrvLen - 1] for a server field of at most 63 bits;
    for a 64-bit server field it succeeds exactly when [SrvID] is
    negative. *)
Theorem NewUidGenerator_succeeds_iff
        (c : UidGeneratorConfig) (prevID : UniqueID) :
  wf_config c ->
  valid_widths c ->
  (SrvLen c <= 63 ->
   ((exists g, NewUidGenerator c prevID = inr g) <-> SrvID c < 2 ^ SrvLen c))
  /\
  (SrvLen c = 64 ->
   ((exists g, NewUidGenerator c prevID = inr g) <-> SrvID c < 0)).
Proof.
  intros Hwf Hv.
  destruct (update_layout c Hwf Hv)
    as (c' & Hup & L & _ & Hsl & _ & Hid & _).
  pose proof (lay_srv _ L) as HS. rewrite Hsl in HS.
  unfold NewUidGenerator. rewrite Hup, (lay_maxsrv _ L), Hsl, Hid.
  split; intros Hlen.
  - pose proof (pow2_pos _ HS). pose proof (pow2_le (SrvLen c) 63).
    rewrite i64_small by lia.
    destruct (SrvID c >? 2 ^ SrvLen c - 1) eqn:Hcmp; split.
    + intros [g Hg]; discriminate.
    + lia.
    + lia.
    + intros _. eexists; reflexivity.
  - rewrite Hlen. change (i64 (2 ^ 64 - 1)) with (-1).
    destruct (SrvID c >? -1) eqn:Hcmp; split.
    + intros [g Hg]; discriminate.
    + lia.
    + lia.
    + intros _. eexists; reflexivity.
Qed.

Lemma NewUidGenerator_succeeds_iff_witness :
  (exists g, NewUidGenerator (rawConfig 41 10 12 20 false 0 1023) 0 = inr g)
  <-> 1023 < 2 ^ 10.
Proof.
  apply (NewUidGenerator_succeeds_iff (rawConfig 41 10 12 20 false 0 1023) 0).
  - unfold wf_config, is_u8, is_i64; cbn; lia.
  - unfold valid_widths; cbn; lia.
  - cbn; lia.
Defined.

(* ================================================================= *)
(** ** More on [NextID] *)

Section Issuing.

Lemma NewUidGenerator_update (c : UidGeneratorConfig) (prevID : UniqueID)
      (g : UidGenerator) :
  NewUidGenerator c prevID = inr g -> update c = inr (cfg g).
Proof.
  unfold NewUidGenerator.
  destruct (update c) as [e | c'] eqn:Hup; [discriminate |].
  destruct (_ >? _); [discriminate |].
  intros H; inversion H; reflexivity.
Qed.

(** A value below [2^(E+S+C)] is the sum of its three fields. *)
Lemma split_fields (x E S C : Z) :
  0 <= E -> 0 <= S -> 0 <= C -> 0 <= x < 2 ^ (E + S + C) ->
  (x / 2 ^ (S + C)) mod 2 ^ E * 2 ^ (S + C)
  + (x / 2 ^ C) mod 2 ^ S * 2 ^ C + x mod 2 ^ C = x.
Proof.
  intros HE HS HC Hx.
  pose proof (pow2_pos _ HE). pose proof (pow2_pos _ HS).
  pose proof (pow2_pos _ HC).
  assert (Hsc : 2 ^ (S + C) = 2 ^ C * 2 ^ S)
    by (rewrite Z.pow_add_r by lia; ring).
  assert (Hhi : 0 <= x / 2 ^ (S + C) < 2 ^ E).
  { split; [apply Z.div_pos; lia |].
    apply Z.div_lt_upper_bound; [lia |].
    rewrite <- Z.pow_add_r by lia.
    replace (S + C + E) with (E + S + C) by lia. lia. }
  rewrite (Z.mod_small _ _ Hhi).
  pose proof (Z.div_mod x (2 ^ (S + C)) ltac:(lia)) as Hdm.
  pose proof (Z.rem_mul_r x (2 ^ C) (2 ^ S) ltac:(lia) ltac:(lia)) as Hr.
  rewrite <- Hsc in Hr. lia.
Qed.

(** A property of [currentID] on every reachable state holds for every
    issued ID. *)
Lemma run_forall (P : UniqueID -> Prop) (g : UidGenerator) :
  (forall g', gen_ok g' -> cfg g' = cfg g -> P (currentID g')) ->
  forall ts g0, gen_ok g0 -> cfg g0 = cfg g -> Forall P (fst (run g0 ts)).
Proof.
  intros HP. induction ts as [| t ts IH]; intros g0 Hok Hcfg; [constructor |].
  rewrite run_cons; cbn [fst].
  pose proof (NextID_ok g0 t Hok) as Hok1.
  pose proof (NextID_cfg g0 t) as Hcfg1.
  constructor.
  - rewrite NextID_id. apply HP; [exact Hok1 | congruence].
  - apply IH; [exact Hok1 | congruence].
Qed.

Lemma Sorted_lt_NoDup (l : list Z) : Sorted Z.lt l -> NoDup l.
Proof.
  intros Hs. apply Sorted_StronglySorted in Hs; [| intros x y z; lia].
  induction Hs as [| x l Hs IH Hall]; constructor; [| exact IH].
  intros Hin. rewrite Forall_forall in Hall. specialize (Hall x Hin). lia.
Qed.


End Issuing.

(** X4.  Restart: on widths summing to at most 63 and a non-negative
    server identity, a generator seeded with a previous ID of this
    layout that carries this server's identity stands for that ID, and
    its first [NextID] returns a greater ID whatever the clock reads. *)
Theorem NewUidGenerator_resumes_after_prevID
        (c : UidGeneratorConfig) (prevID : UniqueID) (g : UidGenerator) :
  wf_config c ->
  EpochLen c + SrvLen c + CntLen c <= 63 ->
  0 <= SrvID c ->
  NewUidGenerator c prevID = inr g ->
  0 <= prevID < 2 ^ (EpochLen c + SrvLen c + CntLen c) ->
  ServerID g prevID = SrvID c ->
  currentID g = prevID /\ forall t : Z, prevID < fst (NextID g t).
Proof.
  intros Hwf H63 Hnn Hnew Hprev Hsrv.
  assert (Hv : valid_widths c) by (unfold valid_widths; lia).
  pose proof (NewUidGenerator_update c prevID g Hnew) as Hup.
  destruct (update_inr_layout c _ Hwf Hv Hup) as (L & He & Hs & Hc & Hid).
  destruct (NewUidGenerator_inv c prevID g Hwf Hv Hnn Hnew)
    as (_ & _ & _ & Hrange & Hsv & Hep & Hcn).
  pose proof (lay_epoch _ L) as HE. pose proof (lay_srv _ L) as HS.
  pose proof (lay_cnt _ L) as HC. pose proof (lay_shift _ L) as Hsh.
  destruct (NewUidGenerator_ok c prevID g Hwf Hv ltac:(lia) Hnn Hnew)
    as (Hok & _).
  pose proof (pow2_pos _ HE) as PE. pose proof (pow2_pos _ HS) as PS.
  pose proof (pow2_pos _ HC) as PC.
  rewrite <- He, <- Hs, <- Hc in Hprev.
  assert (Hfld : Z.land prevID (srvMask (cfg g)) = srvID g).
  { unfold ServerID in Hsrv.
    rewrite (lay_smask _ L), land_field_arith in * by lia.
    pose proof (Z.mod_pos_bound (prevID / 2 ^ CntLen (cfg g))
                                (2 ^ SrvLen (cfg g)) PS) as Hm.
    pose proof (pow2_le (SrvLen (cfg g) + CntLen (cfg g)) 63 ltac:(lia)) as Hle.
    rewrite Z.pow_add_r in Hle by lia.
    rewrite i64_small in Hsrv by nia.
    unfold shr_i64 in Hsrv.
    rewrite Z.shiftr_div_pow2, Z.div_mul in Hsrv by lia.
    rewrite Hsv, Hid, <- Hsrv. reflexivity. }
  assert (Hcur : currentID g = prevID).
  { rewrite (currentID_sum g Hok), <- Hfld, Hep, Hcn.
    rewrite (lay_emask _ L), (lay_smask _ L), (lay_cmask _ L),
      (lay_maxcnt _ L), Hsh.
    rewrite !land_field_arith, land_low_mask by lia.
    apply split_fields; assumption. }
  split; [exact Hcur |].
  intros t. rewrite <- Hcur. apply NextID_increases; [exact Hok |].
  intros _. destruct (gen_ok_iota g Hok) as (Hio & _ & _).
  destruct (masked_epoch (cfg g) prevID L) as ((_ & Hub) & _ & _).
  rewrite Hio, Hep. pose proof (lay_emask _ L) as Hem.
  pose proof (pow2_lt (EpochLen (cfg g) + epochShift (cfg g)) 64
                ltac:(lia)) as Hlt.
  rewrite Z.pow_add_r in Hlt by lia.
  pose proof (pow2_pos (epochShift (cfg g)) ltac:(lia)). nia.
Qed.

Lemma NewUidGenerator_resumes_after_prevID_witness :
  let g := genOf (rawConfig 41 10 12 20 false 1288834974 1) 8796093026309 in
  currentID g = 8796093026309 /\
  forall t : Z, 8796093026309 < fst (NextID g t).
Proof.
  apply (NewUidGenerator_resumes_after_prevID
           (rawConfig 41 10 12 20 false 1288834974 1) 8796093026309).
  - unfold wf_config, is_u8, is_i64; cbn; lia.
  - cbn; lia.
  - cbn; lia.
  - vm_compute; reflexivity.
  - cbn; lia.
  - vm_compute; reflexivity.
Defined.

(** X5.  Uniqueness: under the conditions of monotonicity (widths
    summing to at most 64, server and counter fields below bit 63,
    non-negative server identity, no exhaustion step wrapping the stored
    epoch) the IDs of a call sequence grow strictly, so no ID is issued
    twice. *)
Theorem NextID_ids_distinct
        (c : UidGeneratorConfig) (prevID : UniqueID) (g : UidGenerator)
        (ts : list Z) :
  wf_config c ->
  valid_widths c ->
  SrvLen c + CntLen c <= 63 ->
  0 <= SrvID c ->
  NewUidGenerator c prevID = inr g ->
  no_epoch_wrap g ts ->
  Sorted Z.lt (fst (run g ts)) /\ NoDup (fst (run g ts)).
Proof.
  intros Hwf Hv H63 Hnn Hnew Hnw.
  destruct (NewUidGenerator_ok c prevID g Hwf Hv H63 Hnn Hnew) as (Hok & _).
  pose proof (run_increasing ts g Hok Hnw) as Hs.
  apply Sorted_inv in Hs as [Hs _].
  split; [exact Hs | apply Sorted_lt_NoDup, Hs].
Qed.

Lemma NextID_ids_distinct_witness :
  let ids := fst (run (genOf (rawConfig 41 10 12 20 false 1288834974 1) 4094)
                      [7; 0; 0; 9000000; 1]) in
  Sorted Z.lt ids /\ NoDup ids.
Proof.
  apply (NextID_ids_distinct
           (rawConfig 41 10 12 20 false 1288834974 1) 4094).
  - unfold wf_config, is_u8, is_i64; cbn; lia.
  - unfold valid_widths; cbn; lia.
  - cbn; lia.
  - cbn; lia.
  - vm_compute; reflexivity.
  - vm_compute. repeat split; intros _; reflexivity.
Defined.





(* ================================================================= *)
(** ** More on the fields and the time conversions *)

Section Boundaries.

Variable g : UidGenerator.
Hypothesis L : layout (cfg g).
Hypothesis Hil : 0 <= IntervalLen (cfg g).
Hypothesis Hsrv : 0 <= srvID g < 2 ^ epochShift (cfg g).




End Boundaries.

Section Built.

Variable c : UidGeneratorConfig.
Variable prevID : UniqueID.
Variable g : UidGenerator.
Hypothesis Hwf : wf_config c.
Hypothesis Hv : valid_widths c.
Hypothesis Hnn : 0 <= SrvID c.
Hypothesis Hnew : NewUidGenerator c prevID = inr g.



End Built.



(** X9.  Every issued ID is the sum of its three fields in place, and
    its counter field is below [2^CntLen]. *)
Theorem issued_id_is_sum_of_fields
        (c : UidGeneratorConfig) (prevID : UniqueID) (g : UidGenerator)
        (ts : list Z) :
  wf_config c ->
  valid_widths c ->
  SrvLen c + CntLen c <= 63 ->
  0 <= SrvID c ->
  NewUidGenerator c prevID = inr g ->
  Forall (fun id =>
            id = epochField g id * 2 ^ (SrvLen c + CntLen c)
                 + ServerID g id * 2 ^ CntLen c + Count g id /\
            0 <= Count g id < 2 ^ CntLen c)
         (fst (run g ts)).
Proof.
  intros Hwf Hv H63 Hnn Hnew.
  destruct (NewUidGenerator_ok c prevID g Hwf Hv H63 Hnn Hnew)
    as (Hok & Hid & Hcl).
  pose proof (NewUidGenerator_update c prevID g Hnew) as Hup.
  destruct (update_inr_layout c _ Hwf Hv Hup) as (L & _ & Hsl & _).
  apply (run_forall _ g); [| exact Hok | reflexivity].
  intros g' Hok' Hcfg.
  rewrite <- (epochField_cfg g' g _ Hcfg), <- (ServerID_cfg g' g _ Hcfg),
    <- (Count_cfg g' g _ Hcfg).
  rewrite (epochField_currentID g' Hok'), (ServerID_currentID g' Hok'),
    (Count_currentID g' Hok').
  destruct (gen_ok_low_bits g' Hok') as (_ & Hc & _).
  destruct (gen_ok_iota g' Hok') as (_ & H0 & Hp).
  destruct (ok_epoch_mult g' Hok') as [k Hk].
  rewrite Hcfg in *. rewrite <- Hsl, <- Hcl, <- (lay_shift _ L).
  split; [| exact Hc].
  rewrite (currentID_sum g' Hok'), (ok_srv g' Hok'), Hcfg.
  rewrite Hk at 2. rewrite Z.div_mul by lia. lia.
Qed.

Lemma issued_id_is_sum_of_fields_witness :
  let g := genOf (rawConfig 41 10 12 20 false 1288834974 1) 4094 in
  Forall (fun id =>
            id = epochField g id * 2 ^ (10 + 12)
                 + ServerID g id * 2 ^ 12 + Count g id /\
            0 <= Count g id < 2 ^ 12)
         (fst (run g [7; 0; 0; 9000000])).
Proof.
  apply (issued_id_is_sum_of_fields
           (rawConfig 41 10 12 20 false 1288834974 1) 4094).
  - unfold wf_config, is_u8, is_i64; cbn; lia.
  - unfold valid_widths; cbn; lia.
  - cbn; lia.
  - cbn; lia.
  - vm_compute; reflexivity.
Defined.



Section Rounding.

(** The seconds of [Unix]: quotient by [10^9], one more when the
    remainder reaches half a second. *)
Lemma round_half_up (nsec : Z) :
  0 <= nsec < 2 ^ 63 ->
  (if Z.rem nsec 1000000000 >=? 500000000
   then i64 (Z.quot nsec 1000000000 + 1)
   else Z.quot nsec 1000000000)
  = (nsec + 500000000) / 1000000000.
Proof.
  intros Hn.
  rewrite Z.quot_div_nonneg, Z.rem_mod_nonneg by lia.
  pose proof (Z.div_mod nsec 1000000000 ltac:(lia)) as Hdm.
  pose proof (Z.mod_pos_bound nsec 1000000000 ltac:(lia)) as Hm.
  assert (Hq : 0 <= nsec / 1000000000 < 2 ^ 62).
  { split; [apply Z.div_pos; lia |].
    apply Z.div_lt_upper_bound; lia. }
  destruct (_ >=? _) eqn:E.
  - rewrite i64_small by lia.
    apply (Z.div_unique _ _ _ (nsec mod 1000000000 - 500000000)); lia.
  - apply (Z.div_unique _ _ _ (nsec mod 1000000000 + 500000000)); lia.
Qed.

Lemma Unix_of_nanos (g : UidGenerator) (id nsec : Z) :
  i64 (shl64 (shr64 id (epochShift (cfg g))) (IntervalLen (cfg g))) = nsec ->
  0 <= nsec < 2 ^ 63 ->
  Unix g id = i64 ((nsec + 500000000) / 1000000000 + EpochStart (cfg g)).
Proof.
  intros Hns Hn. unfold Unix. rewrite Hns.
  cbv zeta. rewrite round_half_up by exact Hn. reflexivity.
Qed.

Lemma update_interval_fields (c c' : UidGeneratorConfig) :
  update c = inr c' ->
  interval c' = shl_i64 1 (IntervalLen c') /\
  timeMask c' = i64 (interval c' - 1).
Proof.
  unfold update. destruct (idLen c >? 64); [discriminate |].
  intros H; inversion H; subst c'. split; reflexivity.
Qed.

End Rounding.



(** X12.  [Unix] rounds to the nearest second, halves up: for an ID
    whose epoch field stands for [nsec] nanoseconds below [2^63], the
    result is [EpochStart + (nsec + 5 * 10^8) / 10^9]. *)
Theorem Unix_rounds_half_up (g : UidGenerator) (id : UniqueID) :
  0 <= epochShift (cfg g) ->
  0 <= IntervalLen (cfg g) ->
  is_u64 id ->
  id / 2 ^ epochShift (cfg g) * 2 ^ IntervalLen (cfg g) < 2 ^ 63 ->
  is_i64 (EpochStart (cfg g)
          + (id / 2 ^ epochShift (cfg g) * 2 ^ IntervalLen (cfg g)
             + 500000000) / 1000000000) ->
  Unix g id
  = EpochStart (cfg g)
    + (id / 2 ^ epochShift (cfg g) * 2 ^ IntervalLen (cfg g) + 500000000)
      / 1000000000.
Proof.
  intros Hsh Hil Hid Hn Hres. unfold is_u64, is_i64 in *.
  pose proof (pow2_pos _ Hsh) as Hp. pose proof (pow2_pos _ Hil) as Hpi.
  assert (Htk : 0 <= id / 2 ^ epochShift (cfg g))
    by (apply Z.div_pos; lia).
  rewrite (Unix_of_nanos g id
             (id / 2 ^ epochShift (cfg g) * 2 ^ IntervalLen (cfg g))).
  - rewrite i64_small by lia. lia.
  - rewrite shr64_div, shl64_mul by lia.
    rewrite u64_small, i64_small by nia. reflexivity.
  - nia.
Qed.

Lemma Unix_rounds_half_up_witness :
  Unix (genOf SnowflakeConfig 0) 2097152000000
  = 1288834974 + (2097152000000 / 2 ^ 22 * 2 ^ 20 + 500000000) / 1000000000.
Proof.
  apply (Unix_rounds_half_up (genOf SnowflakeConfig 0) 2097152000000).
  - vm_compute; discriminate.
  - vm_compute; discriminate.
  - unfold is_u64; lia.
  - vm_compute; reflexivity.
  - unfold is_i64; vm_compute. split; [discriminate | reflexivity].
Defined.

(** X13.  The stall of the exhaustion branch: for a compiled interval
    width of at most 62 bits it lies between 1 ns and one whole interval,
    whatever the nanosecond reading. *)
Theorem stallNanos_within_interval
        (c c' : UidGeneratorConfig) (nanosecond : Z) :
  wf_config c ->
  update c = inr c' ->
  IntervalLen c' <= 62 ->
  1 <= stallNanos c' nanosecond <= 2 ^ IntervalLen c'.
Proof.
  intros Hwf Hup H62.
  destruct (update_interval c c' Hwf Hup) as (Hil & _).
  destruct (update_interval_fields c c' Hup) as (Hitv & Hmask).
  pose proof (pow2_pos _ Hil) as Hp.
  pose proof (pow2_le (IntervalLen c') 62 ltac:(lia)) as Hle.
  assert (Hi : interval c' = 2 ^ IntervalLen c').
  { rewrite Hitv. unfold shl_i64.
    rewrite Z.shiftl_mul_pow2, Z.mul_1_l by lia. apply i64_small. lia. }
  unfold stallNanos. rewrite Hmask, Hi, (i64_small (_ - 1)) by lia.
  rewrite land_low_mask by lia.
  pose proof (Z.mod_pos_bound nanosecond (2 ^ IntervalLen c') Hp).
  rewrite i64_small; lia.
Qed.

Lemma stallNanos_within_interval_witness :
  1 <= stallNanos (cfg (genOf SnowflakeConfig 0)) 999999999
    <= 2 ^ IntervalLen (cfg (genOf SnowflakeConfig 0)).
Proof.
  apply (stallNanos_within_interval SnowflakeConfig).
  - unfold wf_config, is_u8, is_i64; cbn; lia.
  - vm_compute; reflexivity.
  - vm_compute; discriminate.
Defined.

(* ================================================================= *)
(** ** More on the base-32 codec *)


Section Scanning.

Lemma byteOf_range (ch : ascii) : 0 <= byteOf ch < 256.
Proof.
  unfold byteOf. pose proof (N_ascii_bounded ch). lia.
Qed.

(** The table rejects exactly the bytes below 32. *)
Lemma decodeLetters_invalid_iff (b : Z) :
  0 <= b < 256 -> (decodeLetters b = 255 <-> b < 32).
Proof.
  intros Hb.
  assert (Hall : forallb (fun x => Bool.eqb (decodeLetters x =? 255) (x <? 32))
                         (map Z.of_nat (seq 0 256)) = true)
    by (vm_compute; reflexivity).
  rewrite forallb_forall in Hall.
  assert (Hin : In b (map Z.of_nat (seq 0 256))).
  { apply in_map_iff. exists (Z.to_nat b). split; [lia |].
    apply in_seq. lia. }
  specialize (Hall b Hin). apply Bool.eqb_prop in Hall.
  split; intros H.
  - apply Z.ltb_lt. rewrite <- Hall. apply Z.eqb_eq, H.
  - apply Z.eqb_eq. rewrite Hall. apply Z.ltb_lt, H.
Qed.

Lemma decodeLoop_None_iff (s : string) :
  forall i a,
    decodeLoop (String.length s) s i a = None <->
    exists ch, In ch (list_ascii_of_string s) /\ byteOf ch < 32.
Proof.
  induction s as [| ch s IH]; intros i a.
  - cbn. split; [discriminate | intros (x & [] & _)].
  - cbn [String.length decodeLoop list_ascii_of_string].
    pose proof (decodeLetters_invalid_iff _ (byteOf_range ch)) as Hbad.
    destruct (decodeLetters (byteOf ch) =? 255) eqn:E.
    + apply Z.eqb_eq in E. split; [| reflexivity].
      intros _. exists ch. split; [left; reflexivity | apply Hbad, E].
    + apply Z.eqb_neq in E. rewrite IH. split.
      * intros (x & Hin & Hx). exists x. split; [right; exact Hin | exact Hx].
      * intros (x & [Heq | Hin] & Hx).
        -- subst x. exfalso. apply E, Hbad, Hx.
        -- exists x. split; assumption.
Qed.

Lemma decodeLoop_index (s : string) :
  forall i a i' a',
    decodeLoop (String.length s) s i a = Some (i', a') ->
    i' = i + Z.of_nat (String.length s).
Proof.
  induction s as [| ch s IH]; intros i a i' a' H.
  - cbn in H. inversion H. cbn. lia.
  - cbn [String.length decodeLoop] in H.
    destruct (_ =? 255); [discriminate |].
    apply IH in H. cbn [String.length]. rewrite Nat2Z.inj_succ. lia.
Qed.

(** One more letter [a] at the end: one more shift of the accumulator. *)
Lemma decodeLoop_app_a (s : string) :
  forall i a,
    decodeLoop (String.length (s ++ "a")%string) (s ++ "a")%string i a
    = match decodeLoop (String.length s) s i a with
      | None => None
      | Some (i', a') => Some (i' + 1, shl64 a' letterLen)
      end.
Proof.
  induction s as [| ch s IH]; intros i a.
  - cbn [append String.length decodeLoop].
    change (decodeLetters (byteOf "a"%char)) with 0. cbn [Z.eqb].
    rewrite Z.add_0_r. unfold shl64, u64. rewrite Zmod_mod. reflexivity.
  - cbn [append String.length decodeLoop].
    destruct (_ =? 255); [reflexivity | apply IH].
Qed.

Lemma append_length (s1 s2 : string) :
  String.length (s1 ++ s2)%string = (String.length s1 + String.length s2)%nat.
Proof.
  induction s1 as [| ch s1 IH]; [reflexivity |].
  cbn [append String.length]. rewrite IH. reflexivity.
Qed.

Lemma append_last (x : string) (ch : ascii) (acc : string) :
  ((x ++ String ch EmptyString) ++ acc)%string = (x ++ String ch acc)%string.
Proof.
  induction x as [| y x IH]; [reflexivity |].
  cbn [append]. rewrite IH. reflexivity.
Qed.

(** The fill loop writes in front of what is already there. *)
Lemma fillLetters_acc (n : nat) :
  forall id acc,
    fillLetters n id acc = (fillLetters n id EmptyString ++ acc)%string.
Proof.
  induction n as [| n IH]; intros id acc; [reflexivity |].
  cbn [fillLetters]. rewrite IH, (IH _ (String _ EmptyString)).
  rewrite append_last. reflexivity.
Qed.

End Scanning.

(** X15.  Without truncation [ToBase32] always returns, with exactly
    [strLen] letters, and [FromBase32] reads back the low [5 * strLen]
    bits of the ID without error. *)
Theorem ToBase32_untruncated_decodes
        (c c' : UidGeneratorConfig) (g : UidGenerator) (id : UniqueID)
        (fuel : nat) :
  update c = inr c' ->
  cfg g = c' ->
  TruncStr c' = false ->
  is_u64 id ->
  exists s,
    ToBase32 fuel g id = Returns s /\
    Z.of_nat (String.length s) = strLen c' /\
    FromBase32 g s = (id mod 2 ^ (5 * strLen c'), None).
Proof.
  intros Hup Hcfg Htr Hid. subst c'. unfold is_u64 in Hid.
  pose proof (update_strLen _ _ Hup) as Hlen.
  exists (fillLetters (Z.to_nat (strLen (cfg g))) id EmptyString).
  split; [apply (ToBase32_untruncated g Hlen), Htr |].
  split.
  - rewrite fillLetters_length. cbn [String.length]. lia.
  - rewrite (FromBase32_full g Hlen), pow2_pow32 by lia.
    pose proof (Z.pow_pos_nonneg 32 (strLen (cfg g)) ltac:(lia) ltac:(lia)).
    pose proof (Z.mod_pos_bound id (32 ^ strLen (cfg g)) ltac:(lia)).
    pose proof (Z.mod_le id (32 ^ strLen (cfg g)) ltac:(lia) ltac:(lia)).
    rewrite u64_small by lia. reflexivity.
Qed.

Lemma ToBase32_untruncated_decodes_witness :
  let g := genOf SnowflakeConfig 0 in
  exists s,
    ToBase32 0 g 12345678901234 = Returns s /\
    Z.of_nat (String.length s) = strLen (cfg g) /\
    FromBase32 g s = (12345678901234 mod 2 ^ (5 * strLen (cfg g)), None).
Proof.
  apply (ToBase32_untruncated_decodes SnowflakeConfig).
  - vm_compute; reflexivity.
  - reflexivity.
  - reflexivity.
  - unfold is_u64; lia.
Defined.

(** X16.  Which strings [FromBase32] turns away: a string of at most
    127 bytes is answered with [(0, ErrInvalidStringUID)] exactly when
    one of its bytes is below 32; every other byte is accepted. *)
Theorem FromBase32_error_iff (g : UidGenerator) (s : string) :
  (String.length s <= 127)%nat ->
  (FromBase32 g s = (0, Some ErrInvalidStringUID) <->
   exists ch, In ch (list_ascii_of_string s) /\ byteOf ch < 32).
Proof.
  intros Hlen. unfold FromBase32.
  rewrite i8_small, Nat2Z.id by lia.
  rewrite <- (decodeLoop_None_iff s 0 0).
  destruct (decodeLoop (String.length s) s 0 0) as [[i id] |].
  - split; discriminate.
  - split; reflexivity.
Qed.

Lemma FromBase32_error_iff_witness :
  FromBase32 (genOf SnowflakeConfig 0) (String (ascii_of_nat 9) "ab"%string)
  = (0, Some ErrInvalidStringUID) <->
  exists ch, In ch (list_ascii_of_string (String (ascii_of_nat 9) "ab"%string))
             /\ byteOf ch < 32.
Proof.
  apply (FromBase32_error_iff (genOf SnowflakeConfig 0)).
  cbn; lia.
Defined.

(** X17.  Zero padding does not change the decoded value: appending the
    letter [a] to a string shorter than [strLen] leaves the result of
    [FromBase32] as it was. *)
Theorem FromBase32_append_a (g : UidGenerator) (s : string) :
  Z.of_nat (String.length s) < strLen (cfg g) ->
  strLen (cfg g) <= 127 ->
  FromBase32 g (s ++ "a")%string = FromBase32 g s.
Proof.
  intros Hlt H127. unfold FromBase32.
  rewrite (i8_small (Z.of_nat (String.length (s ++ "a")%string)))
    by (rewrite append_length; cbn [String.length]; lia).
  rewrite (i8_small (Z.of_nat (String.length s))) by lia.
  rewrite !Nat2Z.id, decodeLoop_app_a.
  destruct (decodeLoop (String.length s) s 0 0) as [[i id] |] eqn:E;
    [| reflexivity].
  apply decodeLoop_index in E. f_equal.
  replace (Z.to_nat (strLen (cfg g) - i))
    with (S (Z.to_nat (strLen (cfg g) - (i + 1)))) by lia.
  reflexivity.
Qed.

Lemma FromBase32_append_a_witness :
  FromBase32 (genOf SnowflakeConfig 0) ("bcd" ++ "a")%string
  = FromBase32 (genOf SnowflakeConfig 0) "bcd"%string.
Proof.
  apply (FromBase32_append_a (genOf SnowflakeConfig 0) "bcd"%string).
  - vm_compute; reflexivity.
  - vm_compute; discriminate.
Defined.

(** X18.  A truncated encoding is as short as it can be: for a non-zero
    ID within [5 * strLen] bits the string [ToBase32] returns with the
    truncation flag set ends in a letter other than [a]. *)
Theorem ToBase32_truncated_last_letter
        (c c' : UidGeneratorConfig) (g : UidGenerator) (id : UniqueID)
        (fuel : nat) :
  update c = inr c' ->
  cfg g = c' ->
  TruncStr c' = true ->
  0 < id < 2 ^ 64 ->
  id < 2 ^ (5 * strLen c') ->
  (enoughFuel <= fuel)%nat ->
  exists (s0 : string) (ch : ascii),
    ToBase32 fuel g id = Returns (s0 ++ String ch EmptyString)%string /\
    ch <> "a"%char.
Proof.
  intros Hup Hcfg Htr Hid Hrep Hfuel. subst c'. unfold enoughFuel in Hfuel.
  pose proof (update_strLen _ _ Hup) as Hlen.
  rewrite pow2_pow32 in Hrep by lia.
  destruct (trailing_letters 13 id) as (k & id' & Hk & He & Hm & Hp).
  { change (32 ^ Z.of_nat 13) with (2 ^ 65).
    pose proof (pow2_lt 64 65). lia. }
  assert (Hks : Z.of_nat k < strLen (cfg g)).
  { destruct (Z.lt_ge_cases (Z.of_nat k) (strLen (cfg g))) as [H | H];
      [exact H | exfalso].
    pose proof (Z.pow_le_mono_r 32 (strLen (cfg g)) (Z.of_nat k)
                                ltac:(lia) ltac:(lia)).
    pose proof (pow32_pos k). nia. }
  rewrite He, ToBase32_truncated by (try assumption; lia).
  destruct (_ <? 0) eqn:E; [lia |].
  replace (Z.to_nat (strLen (cfg g) - Z.of_nat k))
    with (S (Z.to_nat (strLen (cfg g) - Z.of_nat k - 1))) by lia.
  cbn [fillLetters]. rewrite fillLetters_acc, land_letterMask.
  eexists; eexists. split; [reflexivity |].
  intros Heq.
  pose proof (letters_decode (id' mod 32)
                (Z.mod_pos_bound id' 32 ltac:(lia))) as Hd.
  rewrite Heq in Hd. change (decodeLetters (byteOf "a"%char)) with 0 in Hd.
  lia.
Qed.

Lemma ToBase32_truncated_last_letter_witness :
  let g := genOf (rawConfig 41 10 12 20 true 1288834974 1) 0 in
  exists (s0 : string) (ch : ascii),
    ToBase32 enoughFuel g 404543206235635712
    = Returns (s0 ++ String ch EmptyString)%string /\
    ch <> "a"%char.
Proof.
  intros g.
  apply (ToBase32_truncated_last_letter
           (rawConfig 41 10 12 20 true 1288834974 1) (cfg g) g).
  - vm_compute; reflexivity.
  - reflexivity.
  - reflexivity.
  - lia.
  - vm_compute; reflexivity.
  - unfold enoughFuel; lia.
Defined.

(** X19.  The scan of [FromBase32] is bounded by [int8(len(str))]: on a
    string of 128 to 255 bytes that bound is negative, no byte is looked
    at, and the call returns ID 0 without error whatever the bytes. *)
Theorem FromBase32_long_string_unscanned (g : UidGenerator) (s : string) :
  (128 <= String.length s <= 255)%nat ->
  FromBase32 g s = (0, None).
Proof.
  intros Hlen. unfold FromBase32.
  assert (Hb : i8 (Z.of_nat (String.length s))
               = Z.of_nat (String.length s) - 256).
  { unfold i8.
    replace (Z.of_nat (String.length s) + 2 ^ 7)
      with (Z.of_nat (String.length s) - 2 ^ 7 + 1 * 2 ^ 8) by lia.
    rewrite Z.mod_add, Z.mod_small by lia. lia. }
  rewrite Hb.
  replace (Z.to_nat (Z.of_nat (String.length s) - 256)) with 0%nat by lia.
  cbn [decodeLoop]. rewrite padLoop_zero. reflexivity.
Qed.

Lemma FromBase32_long_string_unscanned_witness :
  FromBase32 (genOf SnowflakeConfig 0)
             (string_of_list_ascii (repeat "?"%char 130))
  = (0, None).
Proof.
  apply FromBase32_long_string_unscanned.
  change (String.length (string_of_list_ascii (repeat "?"%char 130)))
    with 130%nat.
  lia.
Defined.



Lemma FromBase32_ToBase32_roundtrip_witness :
  let g := genOf (rawConfig 41 10 12 20 true 1288834974 1) 0 in
  exists s,
    ToBase32 enoughFuel g 404543206235635712 = Returns s /\
    FromBase32 g s = (404543206235635712, None).
Proof.
  intros g.
  apply (FromBase32_ToBase32_roundtrip
           (rawConfig 41 10 12 20 true 1288834974 1) (cfg g) g).
  - vm_compute; reflexivity.
  - reflexivity.
  - unfold is_u64; lia.
  - vm_compute; reflexivity.
  - right; lia.
  - unfold enoughFuel; lia.
Defined.
